(** * SmartArray: a shallow embedding of [SmartArray.h]

    The header defines [SmartArray<T>], a heap-backed array with run-time
    index checks, Python-style negative indices and a 9/8 growth ratio, and
    [SmartArrayReverse<T>], a wrapper that keeps a reversed copy.

    The embedding is a small state-and-error monad over a block-structured
    heap.  A [SmartArray] object is the pair of its two fields; every method
    takes the object ([this]) and returns the updated object, with the heap
    threaded by the monad.  Integer conversions between [int] (32 bits) and
    [size_t] (64 bits) are written out, because the bounds check of the
    source depends on them. *)

From stdpp Require Import base list.
From Stdlib Require Import ZArith Lia String.

#[local] Open Scope Z_scope.

(** ** Machine integers (LP64: [int] has 32 bits, [size_t] has 64) *)

Definition INT_MAX : Z := 2 ^ 31 - 1.
Definition INT_MIN : Z := - 2 ^ 31.
Definition SIZE_MOD : Z := 2 ^ 64.
Definition PTRDIFF_MAX : Z := 2 ^ 63 - 1.

#[global] Arguments INT_MAX : simpl never.
#[global] Arguments INT_MIN : simpl never.
#[global] Arguments SIZE_MOD : simpl never.
#[global] Arguments PTRDIFF_MAX : simpl never.

(** Conversion of an integer value to [size_t]: reduction modulo 2^64. *)
Definition to_size_t (z : Z) : Z := z mod SIZE_MOD.

(** Conversion of an integer value to [int]: two's complement, 32 bits. *)
Definition to_int (z : Z) : Z := (z + 2 ^ 31) mod 2 ^ 32 - 2 ^ 31.

(** [a + b], [a - b] and [- a] computed in [size_t]. *)
Definition size_add (a b : Z) : Z := to_size_t (a + b).
Definition size_sub (a b : Z) : Z := to_size_t (a - b).
Definition size_neg (a : Z) : Z := to_size_t (- a).

Definition is_int (z : Z) : Prop := INT_MIN <= z <= INT_MAX.

(** [std::ceil(length * 1.125)] converted back to [size_t].  The factor 9/8
    is a binary fraction, so the [double] product is exact as long as
    [9 * length] fits in the 53-bit significand; on that range the result is
    the integer ceiling of [9 * length / 8]. *)
Definition grow_size (length : Z) : Z := (9 * length + 7) / 8.

#[global] Arguments grow_size : simpl never.

(** The condition of [checkIndexOrSize], [index < -length && index >= length].
    [length] is a [size_t], so [-length] is negated modulo 2^64 and [index] is
    converted to [size_t] in both comparisons. *)
Definition out_of_bounds (length index : Z) : bool :=
  (to_size_t index <? size_neg length) && (length <=? to_size_t index).

(** The index as [put] and [pop] resolve it:
    [index = index < 0 ? length + 1 + index : index].  Both branches of the
    conditional have type [size_t]; the result is stored in an [int]. *)
Definition resolve_put (length index : Z) : Z :=
  to_int (if index <? 0
          then size_add (size_add length 1) (to_size_t index)
          else to_size_t index).

(** The index as [operator[]] and [to_arr] resolve it:
    [if (index < 0) index = length + index]. *)
Definition resolve_get (length index : Z) : Z :=
  if index <? 0 then to_int (size_add length (to_size_t index)) else index.

(** ** The heap *)

(** A pointer to elements: the null pointer, the slot [off] of block [b]
    (whether or not the block has such a slot), or the null pointer moved by
    [addr <> 0] slots, which is the address of no object. *)
Inductive ptr : Type :=
| Null
| Ptr (b : nat) (off : Z)
| Wild (addr : Z).

(** [p + n] *)
Definition ptr_add (p : ptr) (n : Z) : ptr :=
  match p with
  | Null => if n =? 0 then Null else Wild n
  | Ptr b off => Ptr b (off + n)
  | Wild addr => if addr + n =? 0 then Null else Wild (addr + n)
  end.

Definition ptr_block (p : ptr) : option nat :=
  match p with
  | Null => None
  | Ptr b _ => Some b
  | Wild _ => None
  end.

(** What the C++ standard leaves undefined.  The model stops at such a
    step: an implementation may crash there or go on in a damaged state, and
    nothing can be stated of what follows.  Reading past the end of a live
    block is undefined too; it is recorded in the memory instead (see
    [load]). *)
Inductive fault : Type :=
| NullAccess          (* load or store through the null pointer or an offset from it *)
| DeadAccess          (* load or store in a block that is not live *)
| StoreOutOfBlock     (* store outside the bounds of a block *)
| BadDelete           (* delete / delete[] of something new / new[] did not return *)
| AllocFailure        (* new T[n] with n beyond any object size *)
| SignedOverflow.     (* i++ on an int that holds INT_MAX *)

(** [sizeof(T)], in bytes.  The elements considered have at most 2^31
    bytes, so that an array whose slots an [int] can number, and two of them
    together, stay within the largest size an object can have. *)
Class ElementSize (T : Type) : Type := {
  sizeof : Z;
  sizeof_positive : 1 <= sizeof;
  sizeof_bounded : sizeof <= 2 ^ 31
}.

Section SmartArray.

Context {T : Type} {element_size : ElementSize T}.

(** [T{}], the value-initialised element. *)
Variable T0 : T.

(** A slot holds a value or is indeterminate (never written). *)
#[local] Abbreviation cell := (option T).

(** [b_array]: allocated by [new[]] (as opposed to [new]).
    [b_live]: not yet released. *)
Record block : Type := Block {
  b_array : bool;
  b_live : bool;
  b_cells : list cell
}.

(** Block identifiers are positions in [blocks]; an allocation appends.
    [stray_reads] lists, in order, every load outside the bounds of a live
    block.  C++ gives an execution with such a load no meaning; the model
    goes on the way an implementation does, with an indeterminate value, and
    keeps the address, so that a statement can ask for none to have occurred. *)
Record mem : Type := Mem {
  blocks : list block;
  stray_reads : list (nat * Z)
}.

Definition set_block (b : nat) (blk : block) (m : mem) : mem :=
  Mem (<[b := blk]> (blocks m)) (stray_reads m).

Definition push_block (blk : block) (m : mem) : mem :=
  Mem (blocks m ++ [blk]) (stray_reads m).

Definition note_reads (l : list (nat * Z)) (m : mem) : mem :=
  Mem (blocks m) (stray_reads m ++ l).

(** ** Outcomes and the monad *)

Inductive outcome (A : Type) : Type :=
| Ok (a : A) (m : mem)        (* normal return *)
| OutOfBounds (m : mem)       (* checkIndexOrSize printed its error and ran [throw;]:
                                 the call does not return; memory at that point *)
| Fault (f : fault).

#[global] Arguments Ok {A} a m.
#[global] Arguments OutOfBounds {A} m.
#[global] Arguments Fault {A} f.

Definition M (A : Type) : Type := mem -> outcome A.

Definition ret {A} (a : A) : M A := fun m => Ok a m.

Definition bind {A B} (c : M A) (k : A -> M B) : M B :=
  fun m =>
    match c m with
    | Ok a m' => k a m'
    | OutOfBounds m' => OutOfBounds m'
    | Fault f => Fault f
    end.

Definition raise {A} : M A := fun m => OutOfBounds m.

Notation "x <- c ;; k" := (bind c (fun x => k))
  (at level 100, c at next level, right associativity).
Notation "c ;; k" := (bind c (fun _ => k))
  (at level 100, right associativity).

(** [for (i = start; i < start + count; i++) body(i)] *)
Fixpoint for_loop (start count : nat) (body : nat -> M unit) : M unit :=
  match count with
  | O => ret tt
  | S count' => body start ;; for_loop (S start) count' body
  end.

(** [for (int i = 0; i < n; i++) body(i)] with [n] a [size_t].  The
    comparison converts [i] to [size_t], and [i] is never negative, so the
    loop runs while [i < n]; when [n] is above [INT_MAX] the body runs for
    every [i] up to [INT_MAX] and the increment that follows overflows. *)
Definition for_int (n : Z) (body : nat -> M unit) : M unit :=
  for_loop 0 (Z.to_nat (Z.min n (INT_MAX + 1))) body ;;
  if INT_MAX <? n then (fun _ => Fault SignedOverflow) else ret tt.

(** ** Primitive memory operations *)

Definition peek (cs : list cell) (i : nat) : cell := default None (cs !! i).

Definition in_block (cs : list cell) (off : Z) : bool :=
  (0 <=? off) && (off <? Z.of_nat (Datatypes.length cs)).

(** [new T[n]] ([init = None]) and [new T[n]{}] ([init = Some T0]).  The
    request fails when [n * sizeof(T)] bytes are more than an object can
    have; memory is otherwise taken to be sufficient. *)
Definition new_array (n : Z) (init : cell) : M ptr :=
  fun m =>
    if (0 <=? n) && (n * sizeof <=? PTRDIFF_MAX) then
      Ok (Ptr (Datatypes.length (blocks m)) 0)
         (push_block (Block true true (replicate (Z.to_nat n) init)) m)
    else Fault AllocFailure.

Definition load (p : ptr) : M cell :=
  fun m =>
    match p with
    | Null => Fault NullAccess
    | Ptr b off =>
      match blocks m !! b with
      | Some blk =>
        if b_live blk then
          if in_block (b_cells blk) off
          then Ok (peek (b_cells blk) (Z.to_nat off)) m
          else Ok None (note_reads [(b, off)] m)
        else Fault DeadAccess
      | None => Fault DeadAccess
      end
    | Wild _ => Fault NullAccess
    end.

Definition store (p : ptr) (v : cell) : M unit :=
  fun m =>
    match p with
    | Null => Fault NullAccess
    | Ptr b off =>
      match blocks m !! b with
      | Some blk =>
        if b_live blk then
          if in_block (b_cells blk) off
          then Ok tt (set_block b (Block (b_array blk) true
                                             (<[Z.to_nat off := v]> (b_cells blk))) m)
          else Fault StoreOutOfBlock
        else Fault DeadAccess
      | None => Fault DeadAccess
      end
    | Wild _ => Fault NullAccess
    end.

(** [delete[] p] ([array = true]) and [delete p] ([array = false]): nothing
    for the null pointer, otherwise [p] has to be what the matching [new]
    returned and not released yet. *)
Definition release (array : bool) (p : ptr) : M unit :=
  fun m =>
    match p with
    | Null => Ok tt m
    | Ptr b off =>
      match blocks m !! b with
      | Some blk =>
        if b_live blk && (off =? 0) && Bool.eqb (b_array blk) array
        then Ok tt (set_block b (Block (b_array blk) false (b_cells blk)) m)
        else Fault BadDelete
      | None => Fault BadDelete
      end
    | Wild _ => Fault BadDelete
    end.

Definition delete_array : ptr -> M unit := release true.
Definition delete_scalar : ptr -> M unit := release false.

(** [dst[i] = src[i]] *)
Definition copy_slot (src dst : ptr) (i : nat) : M unit :=
  v <- load (ptr_add src (Z.of_nat i)) ;;
  store (ptr_add dst (Z.of_nat i)) v.

(** [std::copy(first, first + n, d_first)] *)
Definition std_copy (first : ptr) (n : Z) (d_first : ptr) : M unit :=
  for_loop 0 (Z.to_nat n) (copy_slot first d_first).

(** ** [struct SmartArray] *)

Record SmartArray : Type := MkSmartArray {
  m_data : ptr;
  length : Z
}.

(** [SmartArray()] *)
Definition SmartArray_default : SmartArray :=
  {| m_data := Null; length := 0 |}.

(** [SmartArray(size_t length)] *)
Definition SmartArray_sized (n : Z) : M SmartArray :=
  p <- new_array n (Some T0) ;;
  ret {| m_data := p; length := n |}.

(** [SmartArray(T* m_data, size_t length)] *)
Definition SmartArray_adopt (p : ptr) (n : Z) : SmartArray :=
  {| m_data := p; length := n |}.

(** [SmartArray(SmartArray<T>& other)] *)
Definition SmartArray_copy (other : SmartArray) : M SmartArray :=
  p <- new_array (length other) None ;;
  std_copy (m_data other) (length other) p ;;
  ret {| m_data := p; length := length other |}.

(** [~SmartArray()] *)
Definition SmartArray_destroy (this : SmartArray) : M unit :=
  delete_array (m_data this).

Definition erase (this : SmartArray) : M SmartArray :=
  ret {| m_data := Null; length := 0 |}.

Definition resize (this : SmartArray) (new_sz : Z) : M SmartArray :=
  if new_sz =? 0 then erase this
  else
    arr <- new_array new_sz None ;;
    std_copy (m_data this) new_sz arr ;;
    delete_array (m_data this) ;;
    ret {| m_data := arr; length := new_sz |}.

Definition checkIndexOrSize (this : SmartArray) (index : Z) : M unit :=
  if out_of_bounds (length this) index then
    delete_array (m_data this) ;;
    raise
  else ret tt.

Definition size (this : SmartArray) : Z := length this.
Definition begin_ (this : SmartArray) : ptr := m_data this.
Definition end_ (this : SmartArray) : ptr := ptr_add (m_data this) (length this).

Definition put (this : SmartArray) (input : T) (index : Z) : M SmartArray :=
  checkIndexOrSize this index ;;
  let old_length := length this in
  this <- resize this (grow_size (length this)) ;;
  let index := resolve_put old_length index in
  store (ptr_add (m_data this) index) (Some input) ;;
  ret this.

Definition append (this : SmartArray) (input : T) : M SmartArray :=
  put this input (-1).

Definition pop (this : SmartArray) (index : Z) : M SmartArray :=
  checkIndexOrSize this index ;;
  let index := resolve_put (length this) index in
  delete_scalar (ptr_add (m_data this) index) ;;
  resize this (size_sub (length this) 1).

Definition from_arr (this : SmartArray) (arr : ptr) (arr_len : Z) : M SmartArray :=
  this <- resize this arr_len ;;
  for_int arr_len (copy_slot arr (m_data this)) ;;
  ret this.

Definition to_arr (this : SmartArray) (new_sz : Z) : M ptr :=
  checkIndexOrSize this new_sz ;;
  if new_sz =? 0 then ret Null
  else
    let new_sz := resolve_get (length this) new_sz in
    new_array <- new_array (to_size_t new_sz) None ;;
    std_copy (m_data this) new_sz new_array ;;
    ret new_array.

(** [operator[]]: the result is the reference, i.e. the address of the slot. *)
Definition subscript (this : SmartArray) (index : Z) : M ptr :=
  checkIndexOrSize this index ;;
  let index := resolve_get (length this) index in
  ret (ptr_add (m_data this) index).

(** The right operand of [operator+], which is taken by reference: the
    array itself, as in [a + a], or another object. *)
Inductive operand : Type :=
| Itself
| Another (other : SmartArray).

(** [operator+].  The fields of [other] are read when the statements reach
    them: [other.length] before [resize], [other.m_data] after it.  When
    [other] is [*this], the latter is the buffer [resize] has just made. *)
Definition operator_plus (this : SmartArray) (rhs : operand) : M SmartArray :=
  let old_length := length this in
  let other_length :=
    match rhs with Itself => length this | Another other => length other end in
  this <- resize this (size_add (length this) other_length) ;;
  let other_data :=
    match rhs with Itself => m_data this | Another other => m_data other end in
  std_copy other_data old_length (ptr_add (m_data this) old_length) ;;
  ret this.

(** [a + b] for two distinct objects. *)
Definition concat (this other : SmartArray) : M SmartArray :=
  operator_plus this (Another other).

(** ** [struct SmartArrayReverse] *)

Record SmartArrayReverse : Type := MkSmartArrayReverse {
  base : SmartArray;      (* the inherited SmartArray<T> subobject *)
  iter : SmartArray
}.

(** [buffer[-i-1] = iter[i]] with [i] a [size_t]: the right operand is
    evaluated first, and both subscripts convert their argument to [int]. *)
Definition reverse_slot (iter buffer : SmartArray) (i : nat) : M unit :=
  src <- subscript iter (to_int (Z.of_nat i)) ;;
  v <- load src ;;
  dst <- subscript buffer (to_int (size_sub (size_neg (Z.of_nat i)) 1)) ;;
  store dst v.

Definition reverse (iter : SmartArray) : M unit :=
  buffer <- SmartArray_sized (length iter) ;;
  for_loop 0 (Z.to_nat (length iter)) (reverse_slot iter buffer) ;;
  std_copy (m_data buffer) (length buffer) (m_data iter) ;;
  SmartArray_destroy buffer.

(** [SmartArrayReverse(SmartArray<T> arr): iter{arr} { reverse(); }] called
    on an lvalue [a]: the by-value parameter [arr] is a copy of [a], [iter]
    is a copy of [arr], and [arr] is destroyed when the constructor returns. *)
Definition SmartArrayReverse_ctor (a : SmartArray) : M SmartArrayReverse :=
  arr <- SmartArray_copy a ;;
  iter <- SmartArray_copy arr ;;
  reverse iter ;;
  SmartArray_destroy arr ;;
  ret {| base := SmartArray_default; iter := iter |}.

Definition rbegin_ (this : SmartArrayReverse) : ptr := m_data (iter this).
Definition rend_ (this : SmartArrayReverse) : ptr :=
  ptr_add (m_data (iter this)) (length (iter this)).

(** A range-based [for] from [first] over [n] slots: the values it reads. *)
Fixpoint iterate (first : ptr) (n : nat) : M (list cell) :=
  match n with
  | O => ret []
  | S n' =>
    v <- load first ;;
    vs <- iterate (ptr_add first 1) n' ;;
    ret (v :: vs)
  end.

(** The template overload [from_arr(const T (&arr)[N])]: the body of
    [from_arr] with [N] for the length. *)
Definition from_arr_fixed (this : SmartArray) (arr : ptr) (N : Z) : M SmartArray :=
  this <- resize this N ;;
  for_int N (copy_slot arr (m_data this)) ;;
  ret this.

(** [~SmartArrayReverse()], implicit: the member [iter] is destroyed, then
    the base subobject. *)
Definition SmartArrayReverse_destroy (this : SmartArrayReverse) : M unit :=
  SmartArray_destroy (iter this) ;;
  SmartArray_destroy (base this).

(** What an output stream is sent: a string literal, or an element. *)
Inductive token : Type :=
| Text (s : string)
| Value (v : cell).

(** The body of [operator<<(std::ostream&, SmartArray<T> a)]. *)
Definition stream_items (a : SmartArray) : M (list token) :=
  vs <- iterate (begin_ a) (Z.to_nat (length a)) ;;
  ret (Text "{" :: flat_map (fun v => [Value v; Text ", "]) vs ++ [Text "}"]).

(** [out << a] with [a] an lvalue: the by-value parameter is a copy of [a],
    destroyed when the call is over. *)
Definition stream_out (a : SmartArray) : M (list token) :=
  tmp <- SmartArray_copy a ;;
  out <- stream_items tmp ;;
  SmartArray_destroy tmp ;;
  ret out.

End SmartArray.

(** [int] as the element type. *)
#[global] Instance int_size : ElementSize Z :=
  {| sizeof := 4;
     sizeof_positive := ltac:(lia);
     sizeof_bounded := ltac:(lia) |}.

(** ** Vocabulary of the statements *)

Abbreviation len := Datatypes.length (only parsing).

(** [holds m a cs]: the object [a] is a well-formed array whose slots are
    exactly [cs] in memory [m]: either the empty state (no buffer), or its
    buffer is a live [new[]] block of [length a] slots. *)
Definition holds {T} (m : mem) (a : SmartArray) (cs : list (option T)) : Prop :=
  length a = Z.of_nat (len cs) /\
  match m_data a with
  | Null => cs = []
  | Ptr b off => off = 0 /\ blocks m !! b = Some (Block true true cs)
  | Wild _ => False
  end.

(** The slots of [a] as a range-based [for] would visit them, if its buffer
    is there. *)
Definition elements {T} (m : mem) (a : SmartArray) : option (list (option T)) :=
  match m_data a with
  | Null => if length a =? 0 then Some [] else None
  | Ptr b off =>
    match blocks m !! b with
    | Some blk =>
      if b_live blk && (off =? 0) && (length a =? Z.of_nat (len (b_cells blk)))
      then Some (b_cells blk) else None
    | None => None
    end
  | Wild _ => None
  end.

(** What a copy of [k] slots starting at slot [i] of a block with slots
    [cs] delivers, and which of its loads fall outside the block [b]. *)
Definition copied {T} (cs : list (option T)) (i k : nat) : list (option T) :=
  peek cs <$> seq i k.

Definition strays (b : nat) (n i k : nat) : list (nat * Z) :=
  (fun j => (b, Z.of_nat j)) <$> filter (fun j => (n <= j)%nat) (seq i k).

(** [xs] written over [ds] from position [pos] on. *)
Definition splice {A} (ds : list A) (pos : nat) (xs : list A) : list A :=
  take pos ds ++ xs ++ drop (pos + len xs) ds.

(** The memory after [resize] to [n > 0] slots of an array whose buffer is
    the block [b] with slots [cs]: a new block with the copy is appended, the
    loads past [cs] are on record, the old block is released. *)
Definition resized {T} (m : mem) (b : nat) (cs : list (option T)) (n : nat) : mem :=
  set_block b (Block true false cs)
    (note_reads (strays b (len cs) 0 n)
       (push_block (Block true true (copied cs 0 n)) m)).

(** The buffer of [reverse] after the slots [i, i + k) of [cs] have been
    stored in it from the back; [n] is the common length. *)
Fixpoint rev_into {T} (cs : list (option T)) (n : nat) (buf : list (option T))
    (i k : nat) : list (option T) :=
  match k with
  | O => buf
  | S k' => rev_into cs n (<[(n - 1 - i)%nat := peek cs i]> buf) (S i) k'
  end.

(** The memory after [SmartArrayReverse] has been constructed over an array
    with slots [cs]: three blocks are appended, the by-value parameter
    (released), the view's [iter] and the scratch buffer of [reverse]
    (released). *)
Definition viewed {T} (m : mem) (cs : list (option T)) : mem :=
  Mem (blocks m ++ [Block true false cs;
                    Block true true (list.reverse cs);
                    Block true false (list.reverse cs)])
      (stray_reads m).

(** The memory once [delete[] m_data] has run on [a]. *)
Definition freed {T} (m : @mem T) (a : SmartArray) : mem :=
  match m_data a with
  | Null => m
  | Ptr b _ =>
    match blocks m !! b with
    | Some blk => set_block b (Block (b_array blk) false (b_cells blk)) m
    | None => m
    end
  | Wild _ => m
  end.

(** The two uses of the reference that [operator[]] returns:
    [x = a[index]] and [a[index] = v]. *)
Definition get {T} `{ElementSize T} (this : SmartArray) (index : Z) : M (option T) :=
  bind (subscript this index) load.

Definition set {T} `{ElementSize T} (this : SmartArray) (index : Z) (v : T) : M unit :=
  bind (subscript this index) (fun p => store p (Some v)).

(** An access that fails and leaves the slots of [a] as they were. *)
Definition fails_unchanged {T A} (c : M A) (m : @mem T) (a : SmartArray) : Prop :=
  exists m', c m = OutOfBounds m' /\ elements m' a = elements m a.

(** [put this v index] completes and [v] is then in slot [slot]. *)
Definition put_lands_in {T} `{ElementSize T} (m : @mem T) (a : SmartArray) (v : T)
    (index : Z)
    (slot : Z) : Prop :=
  exists a' m' cs', put a v index m = Ok a' m' /\
                    elements m' a' = Some cs' /\
                    cs' !! Z.to_nat slot = Some (Some v).

(** The mutating operations of the public interface, and a run of them on
    one array in which every call has a defined outcome and returns. *)
Inductive mutation {T : Type} : Type :=
| Put (v : T) (index : Z)
| Append (v : T)
| Pop (index : Z)
| Concat (rhs : operand)
| FromArr (arr : ptr) (arr_len : Z).

#[global] Arguments mutation T : clear implicits.

Definition mutate {T} `{ElementSize T} (mu : mutation T) (a : SmartArray) :
    M SmartArray :=
  match mu with
  | Put v index => put a v index
  | Append v => append a v
  | Pop index => pop a index
  | Concat rhs => operator_plus a rhs
  | FromArr arr arr_len => from_arr a arr arr_len
  end.

Inductive mutates {T} `{ElementSize T} :
    SmartArray -> @mem T -> SmartArray -> @mem T -> Prop :=
| mutates_done a m : mutates a m a m
| mutates_step mu a m a1 m1 a2 m2 :
    mutate mu a m = Ok a1 m1 -> mutates a1 m1 a2 m2 -> mutates a m a2 m2.

(** Block [bv] exists in [m] and is the same in [m']. *)
Definition keeps {T} (bv : nat) (m m' : @mem T) : Prop :=
  blocks m' !! bv = blocks m !! bv /\ (len (blocks m) <= len (blocks m'))%nat.

(** Whenever [c] returns, it has left the existing block [bv] alone and its
    result satisfies [Q]. *)
Definition frames {T A} (bv : nat) (c : M A) (Q : A -> Prop) : Prop :=
  forall (m : @mem T) x m',
    (bv < len (blocks m))%nat -> c m = Ok x m' -> keeps bv m m' /\ Q x.

(** The buffer of the array is not the block [bv]. *)
Definition apart (bv : nat) (a : SmartArray) : Prop :=
  ptr_block (m_data a) <> Some bv.

(** ** The example program *)

Definition newline : string := String (Ascii.ascii_of_nat 10) EmptyString.

(** [main] of [example.cpp].  [lit] is the array [{1, 2, 3}] that the braced
    list of [from_arr<3>] denotes; the result is what [std::cout] was sent.
    The temporary view of the range-based [for] lives until the loop is
    over, and [a] is destroyed when [main] returns. *)
Definition main (lit : ptr) : M (list (@token Z)) :=
  bind (SmartArray_sized 0 3) (fun a =>
  bind (from_arr_fixed a lit 3) (fun a =>
  bind (stream_out a) (fun out1 =>
  bind (pop a (-1)) (fun a =>
  bind (SmartArrayReverse_ctor 0 a) (fun view =>
  bind (iterate (rbegin_ view) (Z.to_nat (length (iter view)))) (fun out2 =>
  bind (SmartArrayReverse_destroy view) (fun _ =>
  bind (put a 500 (-1)) (fun a =>
  bind (stream_out a) (fun out3 =>
  bind (get a 3) (fun x =>
  bind (SmartArray_destroy a) (fun _ =>
  ret (out1 ++ [Text newline] ++ (Value <$> out2) ++ [Text newline]
       ++ out3 ++ [Text newline; Value x])))))))))))).

(** The statements of [main] before [a.pop()]: the array and the output. *)
Definition main_before_pop (lit : ptr) : M (SmartArray * list (@token Z)) :=
  bind (SmartArray_sized 0 3) (fun a =>
  bind (from_arr_fixed a lit 3) (fun a =>
  bind (stream_out a) (fun out1 =>
  ret (a, out1)))).

(** ** Sample states: arrays of [int] *)

Definition cells_of (l : list Z) : list (option Z) := Some <$> l.

(** One array [{1, 2, 3}] alone in memory. *)
Definition mem_123 : @mem Z := Mem [Block true true (cells_of [1; 2; 3])] [].
Definition arr_123 : SmartArray := MkSmartArray (Ptr 0 0) 3.

(** [a = {1}] and [b = {10, 20}]. *)
Definition mem_1_2 : @mem Z :=
  Mem [Block true true (cells_of [1]); Block true true (cells_of [10; 20])] [].
Definition arr_1 : SmartArray := MkSmartArray (Ptr 0 0) 1.
Definition arr_10_20 : SmartArray := MkSmartArray (Ptr 1 0) 2.

(** [a = {1, 2, 3}] and [b = {10, 20, 30}]. *)
Definition mem_3_3 : @mem Z :=
  Mem [Block true true (cells_of [1; 2; 3]);
       Block true true (cells_of [10; 20; 30])] [].
Definition arr_10_20_30 : SmartArray := MkSmartArray (Ptr 1 0) 3.

(** [{1, ..., 9}] alone in memory. *)
Definition mem_nine : @mem Z :=
  Mem [Block true true (cells_of [1; 2; 3; 4; 5; 6; 7; 8; 9])] [].
Definition arr_nine : SmartArray := MkSmartArray (Ptr 0 0) 9.

(** The view over [{1, 2, 3}] and the memory its constructor leaves. *)
Definition view_123 : SmartArrayReverse :=
  MkSmartArrayReverse SmartArray_default (MkSmartArray (Ptr 2 0) 3).
Definition mem_view_123 : @mem Z := viewed mem_123 (cells_of [1; 2; 3]).

(** The source after [a + view.iter] and then [a.put(9)], run in
    [mem_view_123]. *)
Definition arr_after_run : SmartArray := MkSmartArray (Ptr 5 0) 7.
Definition mem_after_run : @mem Z :=
  Mem [Block true false (cells_of [1; 2; 3]);
       Block true false (cells_of [1; 2; 3]);
       Block true true (cells_of [3; 2; 1]);
       Block true false (cells_of [3; 2; 1]);
       Block true false (cells_of [1; 2; 3; 3; 2; 1]);
       Block true true (cells_of [1; 2; 3; 3; 2; 1; 9])]
      [(0%nat, 3); (0%nat, 4); (0%nat, 5); (4%nat, 6)].

(** [a = {1, 2}] and [b = {10}]. *)
Definition mem_2_1 : @mem Z :=
  Mem [Block true true (cells_of [1; 2]); Block true true (cells_of [10])] [].
Definition arr_1_2 : SmartArray := MkSmartArray (Ptr 0 0) 2.
Definition arr_10 : SmartArray := MkSmartArray (Ptr 1 0) 1.

(** The copy of [{1, 2, 3}] that the copy constructor makes in [mem_123]. *)
Definition arr_copy_123 : SmartArray := MkSmartArray (Ptr 1 0) 3.
Definition mem_copy_123 : @mem Z :=
  push_block (Block true true (cells_of [1; 2; 3])) mem_123.

(** The array of the braced list [{1, 2, 3}] alone in memory; it is not a
    [new[]] block. *)
Definition mem_literal : @mem Z := Mem [Block false true (cells_of [1; 2; 3])] [].

(** Nothing allocated. *)
Definition mem_empty : @mem Z := Mem [] [].

Section Proofs.

Context {T : Type} {element_size : ElementSize T}.
Variable T0 : T.

Implicit Types (m : @mem T) (a : SmartArray) (cs ds : list (option T)).

(** ** Integer conversions *)

Lemma to_size_t_small z : 0 <= z < SIZE_MOD -> to_size_t z = z.
Proof. intros H. unfold to_size_t. apply Z.mod_small, H. Qed.

Lemma to_size_t_neg z : - SIZE_MOD <= z < 0 -> to_size_t z = z + SIZE_MOD.
Proof.
  intros H. unfold to_size_t.
  rewrite <- (Z_mod_plus_full z 1 SIZE_MOD), Z.mul_1_l.
  apply Z.mod_small. lia.
Qed.

Lemma to_size_t_wrap z : 0 <= z < SIZE_MOD -> to_size_t (z + SIZE_MOD) = z.
Proof.
  intros H. unfold to_size_t.
  rewrite <- (Z.mul_1_l SIZE_MOD) at 1. rewrite Z_mod_plus_full.
  apply Z.mod_small, H.
Qed.

Lemma to_int_small z : is_int z -> to_int z = z.
Proof.
  unfold is_int, INT_MIN, INT_MAX, to_int. intros H.
  rewrite Z.mod_small; lia.
Qed.

Lemma SIZE_MOD_eq : SIZE_MOD = 18446744073709551616.
Proof. reflexivity. Qed.

Lemma INT_MAX_eq : INT_MAX = 2147483647.
Proof. reflexivity. Qed.

Lemma INT_MIN_eq : INT_MIN = -2147483648.
Proof. reflexivity. Qed.

Ltac ints := rewrite ?SIZE_MOD_eq, ?INT_MAX_eq, ?INT_MIN_eq in *.

(** On a non-empty array whose slots an [int] can number, the test of
    [checkIndexOrSize] is true exactly for the indices outside
    [-length, length): the unsigned comparisons make the conjunction behave
    as the intended disjunction. *)
Lemma out_of_bounds_nonempty n i :
  0 < n <= INT_MAX -> is_int i ->
  out_of_bounds n i = true <-> (n <= i \/ i < - n).
Proof.
  unfold is_int, out_of_bounds, size_neg. intros Hn Hi.
  rewrite (to_size_t_neg (- n)) by (ints; lia).
  rewrite andb_true_iff, Z.ltb_lt, Z.leb_le.
  destruct (Z.neg_nonneg_cases i) as [Hneg | Hpos].
  - rewrite (to_size_t_neg i) by (ints; lia). ints. lia.
  - rewrite (to_size_t_small i) by (ints; lia). ints. lia.
Qed.

(** On an empty array the test is never true. *)
Lemma out_of_bounds_empty i : out_of_bounds 0 i = false.
Proof.
  unfold out_of_bounds, size_neg. change (to_size_t (- 0)) with 0.
  apply andb_false_iff. left. apply Z.ltb_ge.
  unfold to_size_t. apply Z.mod_pos_bound. ints. lia.
Qed.

Lemma resolve_get_nonneg n i : 0 <= i -> resolve_get n i = i.
Proof. intros H. unfold resolve_get. destruct (Z.ltb_spec i 0); [lia | done]. Qed.

Lemma resolve_get_neg n i :
  0 <= n <= INT_MAX -> - n <= i < 0 -> resolve_get n i = n + i.
Proof.
  intros Hn Hi. unfold resolve_get, size_add.
  destruct (Z.ltb_spec i 0); [| lia].
  rewrite (to_size_t_neg i) by (ints; lia).
  replace (n + (i + SIZE_MOD)) with ((n + i) + SIZE_MOD) by lia.
  rewrite to_size_t_wrap by (ints; lia).
  apply to_int_small. unfold is_int. ints. lia.
Qed.

Lemma resolve_put_nonneg n i : 0 <= i <= INT_MAX -> resolve_put n i = i.
Proof.
  intros H. unfold resolve_put. destruct (Z.ltb_spec i 0); [lia |].
  rewrite to_size_t_small by (ints; lia).
  apply to_int_small. unfold is_int. ints. lia.
Qed.

Lemma resolve_put_neg n i :
  0 <= n <= INT_MAX -> - n - 1 <= i < 0 -> resolve_put n i = n + 1 + i.
Proof.
  intros Hn Hi. unfold resolve_put, size_add.
  destruct (Z.ltb_spec i 0); [| lia].
  rewrite (to_size_t_small (n + 1)) by (ints; lia).
  rewrite (to_size_t_neg i) by (ints; lia).
  replace (n + 1 + (i + SIZE_MOD)) with ((n + 1 + i) + SIZE_MOD) by lia.
  rewrite to_size_t_wrap by (ints; lia).
  apply to_int_small. unfold is_int. ints. lia.
Qed.

(** The subscript [-i-1] of [reverse], computed in [size_t] and passed as
    an [int]. *)
Lemma reverse_index i :
  0 <= i <= INT_MAX ->
  to_int (size_sub (size_neg i) 1) = - i - 1.
Proof.
  intros Hi. unfold size_sub, size_neg.
  destruct (Z.eq_dec i 0) as [-> | Hne].
  - reflexivity.
  - rewrite (to_size_t_neg (- i)) by (ints; lia).
    rewrite to_size_t_small by (ints; lia).
    unfold to_int. ints.
    replace (- i + 18446744073709551616 - 1 + 2 ^ 31)
      with ((- i - 1 + 2 ^ 31) + 4294967296 * 2 ^ 32) by lia.
    rewrite Z_mod_plus_full. rewrite Z.mod_small; lia.
Qed.

(** ** Sizes *)

(** An array that an [int] can index, and the concatenation of two, can be
    allocated. *)
Lemma fits_int n : 0 <= n <= 2 * INT_MAX -> n * sizeof <= PTRDIFF_MAX.
Proof.
  intros Hn. pose proof sizeof_positive as Hlo. pose proof sizeof_bounded as Hhi.
  apply Z.le_trans with ((2 * INT_MAX) * 2 ^ 31).
  - apply Z.mul_le_mono_nonneg; lia.
  - vm_compute. discriminate.
Qed.

Lemma fits_less n n' :
  0 <= n' <= n -> n * sizeof <= PTRDIFF_MAX -> n' * sizeof <= PTRDIFF_MAX.
Proof.
  intros Hn H. pose proof sizeof_positive as Hlo.
  apply Z.le_trans with (n * sizeof); [| exact H].
  apply Z.mul_le_mono_nonneg_r; lia.
Qed.

Lemma too_large n : PTRDIFF_MAX < n -> PTRDIFF_MAX < n * sizeof.
Proof.
  intros Hn. pose proof sizeof_positive as Hlo.
  apply Z.lt_le_trans with (n * 1); [lia |].
  apply Z.mul_le_mono_nonneg_l; [unfold PTRDIFF_MAX in Hn; lia | exact Hlo].
Qed.

(** ** The monad *)

Lemma bind_ok {A B} (c : M A) (k : A -> M B) m (x : A) m' :
  c m = Ok x m' -> bind c k m = k x m'.
Proof. intros H. unfold bind. rewrite H. reflexivity. Qed.

Lemma for_int_bind {B} (n : Z) body (k : unit -> M B) m :
  0 <= n <= INT_MAX ->
  bind (for_int n body) k m = bind (for_loop 0 (Z.to_nat n) body) k m.
Proof.
  intros Hn. unfold for_int, bind.
  rewrite Z.min_l by lia.
  destruct (for_loop 0 (Z.to_nat n) body m) as [[] m' | |]; [| reflexivity ..].
  destruct (Z.ltb_spec INT_MAX n); [lia | reflexivity].
Qed.

Lemma bind_out_of_bounds {A B} (c : M A) (k : A -> M B) m m' :
  c m = OutOfBounds m' -> bind c k m = OutOfBounds m'.
Proof. intros H. unfold bind. rewrite H. reflexivity. Qed.

Lemma bind_fault {A B} (c : M A) (k : A -> M B) m f :
  c m = Fault f -> bind c k m = Fault f.
Proof. intros H. unfold bind. rewrite H. reflexivity. Qed.

Lemma bind_ok_inv {A B} (c : M A) (k : A -> M B) m (y : B) m2 :
  bind c k m = Ok y m2 -> exists x m1, c m = Ok x m1 /\ k x m1 = Ok y m2.
Proof.
  unfold bind. destruct (c m) as [x m1 | |]; [| discriminate ..].
  intros H. exists x, m1. split; [reflexivity | exact H].
Qed.

(** ** Loads, stores, allocation and release *)

Lemma in_block_true cs (i : nat) :
  (i < len cs)%nat -> in_block cs (Z.of_nat i) = true.
Proof.
  intros H. unfold in_block. apply andb_true_iff.
  split; [apply Z.leb_le | apply Z.ltb_lt]; lia.
Qed.

Lemma in_block_past cs (i : nat) :
  (len cs <= i)%nat -> in_block cs (Z.of_nat i) = false.
Proof.
  intros H. unfold in_block. apply andb_false_iff. right. apply Z.ltb_ge. lia.
Qed.

Lemma peek_past cs i : (len cs <= i)%nat -> peek cs i = None.
Proof. intros H. unfold peek. rewrite lookup_ge_None_2; [reflexivity | exact H]. Qed.

Lemma load_inside m b k cs (i : nat) :
  blocks m !! b = Some (Block k true cs) -> (i < len cs)%nat ->
  load (Ptr b (Z.of_nat i)) m = Ok (peek cs i) m.
Proof.
  intros Hb Hi. unfold load. rewrite Hb. simpl.
  rewrite in_block_true by exact Hi. rewrite Nat2Z.id. reflexivity.
Qed.

Lemma load_past m b k cs (i : nat) :
  blocks m !! b = Some (Block k true cs) -> (len cs <= i)%nat ->
  load (Ptr b (Z.of_nat i)) m = Ok (peek cs i) (note_reads [(b, Z.of_nat i)] m).
Proof.
  intros Hb Hi. unfold load. rewrite Hb. simpl.
  rewrite in_block_past by exact Hi. rewrite peek_past by exact Hi. reflexivity.
Qed.

Lemma store_inside m b k cs (i : nat) v :
  blocks m !! b = Some (Block k true cs) -> (i < len cs)%nat ->
  store (Ptr b (Z.of_nat i)) v m = Ok tt (set_block b (Block k true (<[i := v]> cs)) m).
Proof.
  intros Hb Hi. unfold store. rewrite Hb. simpl.
  rewrite in_block_true by exact Hi. rewrite Nat2Z.id. reflexivity.
Qed.

Lemma new_array_ok m n init :
  0 <= n -> n * sizeof <= PTRDIFF_MAX ->
  new_array n init m
  = Ok (Ptr (len (blocks m)) 0)
       (push_block (Block true true (replicate (Z.to_nat n) init)) m).
Proof.
  intros H1 H2. unfold new_array.
  destruct (Z.leb_spec 0 n); [| lia].
  destruct (Z.leb_spec (n * sizeof) PTRDIFF_MAX); [| lia].
  reflexivity.
Qed.

Lemma new_array_too_large m n init :
  PTRDIFF_MAX < n * sizeof -> new_array n init m = Fault AllocFailure.
Proof.
  intros Hn. unfold new_array.
  destruct (Z.leb_spec (n * sizeof) PTRDIFF_MAX); [lia |].
  rewrite andb_false_r. reflexivity.
Qed.

Lemma resize_too_large m a n :
  PTRDIFF_MAX < n -> resize a n m = Fault AllocFailure.
Proof.
  intros Hn. unfold resize.
  destruct (Z.eqb_spec n 0) as [E | _]; [unfold PTRDIFF_MAX in Hn; lia |].
  apply bind_fault, new_array_too_large, too_large, Hn.
Qed.

Lemma delete_array_ok m b cs :
  blocks m !! b = Some (Block true true cs) ->
  delete_array (Ptr b 0) m = Ok tt (set_block b (Block true false cs) m).
Proof. intros Hb. unfold delete_array, release. rewrite Hb. reflexivity. Qed.

Lemma lookup_set_block_eq m b blk :
  (b < len (blocks m))%nat -> blocks (set_block b blk m) !! b = Some blk.
Proof. intros H. simpl. apply list_lookup_insert_eq, H. Qed.

Lemma lookup_set_block_ne m b b' blk :
  b <> b' -> blocks (set_block b blk m) !! b' = blocks m !! b'.
Proof. intros H. simpl. apply list_lookup_insert_ne, H. Qed.

Lemma set_block_twice m b blk blk' :
  set_block b blk' (set_block b blk m) = set_block b blk' m.
Proof. unfold set_block. simpl. rewrite list_insert_insert_eq. reflexivity. Qed.

Lemma lookup_push_block_old m blk b :
  (b < len (blocks m))%nat -> blocks (push_block blk m) !! b = blocks m !! b.
Proof. intros H. simpl. apply lookup_app_l, H. Qed.

Lemma lookup_push_block_new m blk :
  blocks (push_block blk m) !! len (blocks m) = Some blk.
Proof. simpl. rewrite lookup_app_r by lia. rewrite Nat.sub_diag. reflexivity. Qed.

(** ** Copy loops *)

Lemma strays_step b n i k :
  strays b n i (S k)
  = (if decide (n <= i)%nat then [(b, Z.of_nat i)] else []) ++ strays b n (S i) k.
Proof.
  unfold strays. simpl seq. rewrite filter_cons.
  destruct (decide (n <= i)%nat); reflexivity.
Qed.

Lemma strays_inside b n i k : (i + k <= n)%nat -> strays b n i k = [].
Proof.
  revert i. induction k as [| k IH]; intros i H; [reflexivity |].
  rewrite strays_step. destruct (decide (n <= i)%nat); [lia |].
  simpl. apply IH. lia.
Qed.

Lemma splice_step {A} (ds : list A) pos x xs :
  (pos < len ds)%nat ->
  splice (<[pos := x]> ds) (S pos) xs = splice ds pos (x :: xs).
Proof.
  intros H. unfold splice.
  rewrite (take_S_r _ pos x) by (apply list_lookup_insert_eq, H).
  rewrite take_insert_ge by lia.
  rewrite drop_insert_lt by lia.
  rewrite <- app_assoc. simpl.
  replace (pos + S (len xs))%nat with (S (pos + len xs)) by lia. reflexivity.
Qed.

Lemma splice_nil {A} (ds : list A) pos : splice ds pos [] = ds.
Proof. unfold splice. simpl. rewrite Nat.add_0_r. apply take_drop. Qed.

Lemma splice_length {A} (ds xs : list A) pos :
  (pos + len xs <= len ds)%nat -> len (splice ds pos xs) = len ds.
Proof.
  intros H. unfold splice.
  rewrite !length_app, length_take, length_drop. lia.
Qed.

(** One slot copied from block [bs] to a different block [bd]: the value is
    the source slot, or indeterminate with the load recorded as stray when
    the source block has no such slot. *)
Lemma copy_slot_spec m bs ks cs bd kd ds doff i :
  bs <> bd ->
  blocks m !! bs = Some (Block ks true cs) ->
  blocks m !! bd = Some (Block kd true ds) ->
  (doff + i < len ds)%nat ->
  copy_slot (Ptr bs 0) (Ptr bd (Z.of_nat doff)) i m
  = Ok tt (note_reads (strays bs (len cs) i 1)
             (set_block bd (Block kd true (<[(doff + i)%nat := peek cs i]> ds)) m)).
Proof.
  intros Hne Hs Hd Hi. unfold copy_slot. simpl ptr_add.
  rewrite strays_step. change (strays bs (len cs) (S i) 0) with (@nil (nat * Z)).
  rewrite app_nil_r, <- Nat2Z.inj_add.
  destruct (decide (len cs <= i)%nat) as [Hout | Hin].
  - rewrite (bind_ok _ _ _ _ _ (load_past m bs ks cs i Hs Hout)).
    rewrite (store_inside _ bd kd ds) by (simpl; assumption). reflexivity.
  - rewrite (bind_ok _ _ _ _ _ (load_inside m bs ks cs i Hs ltac:(lia))).
    rewrite (store_inside _ bd kd ds) by assumption.
    unfold note_reads, set_block. simpl. rewrite app_nil_r. reflexivity.
Qed.

Lemma copy_loop_spec bs ks cs bd kd doff k :
  forall i ds m,
  bs <> bd ->
  blocks m !! bs = Some (Block ks true cs) ->
  blocks m !! bd = Some (Block kd true ds) ->
  (doff + i + k <= len ds)%nat ->
  for_loop i k (copy_slot (Ptr bs 0) (Ptr bd (Z.of_nat doff))) m
  = Ok tt (note_reads (strays bs (len cs) i k)
             (set_block bd (Block kd true (splice ds (doff + i) (copied cs i k))) m)).
Proof.
  induction k as [| k IH]; intros i ds m Hne Hs Hd Hk.
  - simpl. unfold ret, copied. simpl. rewrite splice_nil.
    unfold note_reads, set_block. simpl. rewrite app_nil_r.
    rewrite list_insert_id by exact Hd. destruct m; reflexivity.
  - simpl for_loop.
    rewrite (bind_ok _ _ _ _ _ (copy_slot_spec m bs ks cs bd kd ds doff i Hne Hs Hd ltac:(lia))).
    rewrite (IH (S i) (<[(doff + i)%nat := peek cs i]> ds)).
    + rewrite (strays_step bs _ i k), (strays_step bs _ i 0).
      change (strays bs (len cs) (S i) 0) with (@nil (nat * Z)).
      replace (doff + S i)%nat with (S (doff + i)) by lia.
      rewrite splice_step by lia.
      unfold note_reads, set_block. simpl.
      rewrite list_insert_insert_eq, <- app_assoc, app_nil_r. reflexivity.
    + exact Hne.
    + simpl. rewrite list_lookup_insert_ne by (intros E; apply Hne; symmetry; exact E).
      exact Hs.
    + simpl. apply list_lookup_insert_eq. apply lookup_lt_Some in Hd. exact Hd.
    + rewrite length_insert. lia.
Qed.

Lemma std_copy_spec m bs ks cs bd kd ds (doff n : nat) :
  bs <> bd ->
  blocks m !! bs = Some (Block ks true cs) ->
  blocks m !! bd = Some (Block kd true ds) ->
  (doff + n <= len ds)%nat ->
  std_copy (Ptr bs 0) (Z.of_nat n) (Ptr bd (Z.of_nat doff)) m
  = Ok tt (note_reads (strays bs (len cs) 0 n)
             (set_block bd (Block kd true (splice ds doff (copied cs 0 n))) m)).
Proof.
  intros Hne Hs Hd Hn. unfold std_copy. rewrite Nat2Z.id.
  rewrite (copy_loop_spec bs ks cs bd kd doff n 0 ds m Hne Hs Hd) by lia.
  rewrite Nat.add_0_r. reflexivity.
Qed.

Lemma copied_length cs i k : len (copied cs i k) = k.
Proof. unfold copied. rewrite length_fmap. apply length_seq. Qed.

Lemma copied_lookup cs i k j :
  (j < k)%nat -> copied cs i k !! j = Some (peek cs (i + j)).
Proof.
  intros H. unfold copied. rewrite list_lookup_fmap.
  rewrite lookup_seq_lt by exact H. reflexivity.
Qed.

(** Copying [n] slots from the start of a block with slots [cs] gives the
    first [n] of them, followed by indeterminate values if [cs] is shorter. *)
Lemma copied_from_start cs n :
  copied cs 0 n = take n cs ++ replicate (n - len cs) None.
Proof.
  apply list_eq. intros j.
  destruct (decide (j < n)%nat) as [Hj | Hj].
  - rewrite copied_lookup by exact Hj. simpl. unfold peek.
    destruct (decide (j < len cs)%nat) as [Hc | Hc].
    + rewrite lookup_app_l by (rewrite length_take; lia).
      rewrite lookup_take_lt by exact Hj.
      destruct (lookup_lt_is_Some_2 cs j Hc) as [x Hx]. rewrite Hx. reflexivity.
    + rewrite lookup_ge_None_2 by lia.
      rewrite lookup_app_r by (rewrite length_take; lia).
      simpl. symmetry. apply lookup_replicate. split; [reflexivity |].
      rewrite length_take. lia.
  - rewrite !lookup_ge_None_2; [reflexivity | |].
    + rewrite length_app, length_take, length_replicate. lia.
    + rewrite copied_length. lia.
Qed.

Lemma copied_all cs : copied cs 0 (len cs) = cs.
Proof.
  rewrite copied_from_start, Nat.sub_diag, firstn_all. apply app_nil_r.
Qed.

Lemma copied_prefix cs n : (n <= len cs)%nat -> copied cs 0 n = take n cs.
Proof.
  intros H. rewrite copied_from_start.
  replace (n - len cs)%nat with 0%nat by lia. apply app_nil_r.
Qed.

Lemma copied_beyond cs n :
  (len cs <= n)%nat -> copied cs 0 n = cs ++ replicate (n - len cs) None.
Proof. intros H. rewrite copied_from_start, take_ge by exact H. reflexivity. Qed.

Lemma strays_beyond b n0 n :
  (n0 <= n)%nat ->
  strays b n0 0 n = (fun j => (b, Z.of_nat j)) <$> seq n0 (n - n0).
Proof.
  intros H. unfold strays. f_equal.
  replace n with (n0 + (n - n0))%nat at 1 by lia.
  rewrite seq_app, filter_app. simpl.
  assert (Hlow : forall i k, (i + k <= n0)%nat ->
            filter (fun j => (n0 <= j)%nat) (seq i k) = []).
  { intros i k. revert i. induction k as [| k IH]; intros i Hk; [reflexivity |].
    simpl seq. rewrite filter_cons. destruct (decide (n0 <= i)%nat); [lia |].
    apply IH. lia. }
  assert (Hhigh : forall i k, (n0 <= i)%nat ->
            filter (fun j => (n0 <= j)%nat) (seq i k) = seq i k).
  { intros i k. revert i. induction k as [| k IH]; intros i Hk; [reflexivity |].
    simpl seq. rewrite filter_cons. destruct (decide (n0 <= i)%nat); [| lia].
    f_equal. apply IH. lia. }
  rewrite Hlow by lia. rewrite Hhigh by lia. reflexivity.
Qed.

Lemma splice_whole {A} (ds xs : list A) : len xs = len ds -> splice ds 0 xs = xs.
Proof.
  intros H. unfold splice. simpl. rewrite H, drop_all. apply app_nil_r.
Qed.

Lemma splice_tail {A} (l1 l2 xs : list A) :
  len xs = len l2 -> splice (l1 ++ l2) (len l1) xs = l1 ++ xs.
Proof.
  intros H. unfold splice.
  rewrite take_app_length, H, <- length_app, drop_all, app_nil_r. reflexivity.
Qed.

Lemma copied_insert_after cs pos x i k :
  (i + k <= pos)%nat -> copied (<[pos := x]> cs) i k = copied cs i k.
Proof.
  intros H. apply list_eq. intros j.
  destruct (decide (j < k)%nat) as [Hj | Hj].
  - rewrite !copied_lookup by exact Hj. unfold peek.
    rewrite list_lookup_insert_ne by lia. reflexivity.
  - rewrite !lookup_ge_None_2 by (rewrite copied_length; lia). reflexivity.
Qed.

Lemma copy_slot_within m b kd ds doff i :
  blocks m !! b = Some (Block kd true ds) ->
  (i < len ds)%nat -> (doff + i < len ds)%nat ->
  copy_slot (Ptr b 0) (Ptr b (Z.of_nat doff)) i m
  = Ok tt (set_block b (Block kd true (<[(doff + i)%nat := peek ds i]> ds)) m).
Proof.
  intros Hd Hi Hk. unfold copy_slot. simpl ptr_add.
  rewrite (bind_ok _ _ _ _ _ (load_inside m b kd ds i Hd Hi)).
  rewrite <- Nat2Z.inj_add.
  apply (store_inside m b kd ds (doff + i) (peek ds i) Hd Hk).
Qed.

(** A copy inside one block, from its start to [doff] slots further on,
    of slots that all lie before [doff]. *)
Lemma copy_within_block b kd doff k :
  forall i ds m,
  blocks m !! b = Some (Block kd true ds) ->
  (i + k <= doff)%nat -> (doff + i + k <= len ds)%nat ->
  for_loop i k (copy_slot (Ptr b 0) (Ptr b (Z.of_nat doff))) m
  = Ok tt (set_block b (Block kd true (splice ds (doff + i) (copied ds i k))) m).
Proof.
  induction k as [| k IH]; intros i ds m Hd Hi Hk.
  - simpl. unfold ret, copied. simpl. rewrite splice_nil.
    unfold set_block. rewrite list_insert_id by exact Hd. destruct m; reflexivity.
  - simpl for_loop.
    rewrite (bind_ok _ _ _ _ _
               (copy_slot_within m b kd ds doff i Hd ltac:(lia) ltac:(lia))).
    rewrite (IH (S i) (<[(doff + i)%nat := peek ds i]> ds)).
    + rewrite copied_insert_after by lia.
      replace (doff + S i)%nat with (S (doff + i)) by lia.
      rewrite splice_step by lia.
      rewrite set_block_twice. reflexivity.
    + apply lookup_set_block_eq. eapply lookup_lt_Some, Hd.
    + lia.
    + rewrite length_insert. lia.
Qed.

Lemma set_block_push m blk blk' :
  set_block (len (blocks m)) blk' (push_block blk m) = push_block blk' m.
Proof.
  unfold set_block, push_block. simpl. f_equal.
  rewrite insert_app_r_alt by lia. rewrite Nat.sub_diag. reflexivity.
Qed.

(** ** Well-formed arrays *)

Lemma holds_buffer m a cs :
  holds m a cs -> m_data a <> Null ->
  exists b, a = MkSmartArray (Ptr b 0) (Z.of_nat (len cs)) /\
            blocks m !! b = Some (Block true true cs) /\ (b < len (blocks m))%nat.
Proof.
  destruct a as [p l]. unfold holds. simpl. intros [Hl Hp] Hnn.
  destruct p as [| b off | w]; [congruence | | contradiction]. destruct Hp as [-> Hb].
  exists b. subst l. split; [reflexivity |]. split; [exact Hb |].
  eapply lookup_lt_Some, Hb.
Qed.

Lemma holds_nonempty m a cs :
  holds m a cs -> 0 < length a ->
  exists b, a = MkSmartArray (Ptr b 0) (Z.of_nat (len cs)) /\
            blocks m !! b = Some (Block true true cs) /\ (b < len (blocks m))%nat.
Proof.
  intros H Hpos. apply (holds_buffer m a cs H).
  destruct a as [p l]. destruct H as [Hl Hp]. simpl in *.
  destruct p; [| discriminate | discriminate]. subst cs. simpl in Hl. lia.
Qed.

Lemma holds_elements m a cs : holds m a cs -> elements m a = Some cs.
Proof.
  destruct a as [p l]. unfold holds, elements. simpl. intros [-> Hp].
  destruct p as [| b off | w].
  - subst cs. reflexivity.
  - destruct Hp as [-> ->]. simpl. rewrite Z.eqb_refl. reflexivity.
  - contradiction.
Qed.

(** ** The bounds check *)

Lemma check_pass m a i :
  out_of_bounds (length a) i = false -> checkIndexOrSize a i m = Ok tt m.
Proof. intros H. unfold checkIndexOrSize. rewrite H. reflexivity. Qed.

Lemma check_fail m b cs l i :
  blocks m !! b = Some (Block true true cs) ->
  out_of_bounds l i = true ->
  checkIndexOrSize (MkSmartArray (Ptr b 0) l) i m
  = OutOfBounds (set_block b (Block true false cs) m).
Proof.
  intros Hb H. unfold checkIndexOrSize. simpl. rewrite H.
  rewrite (bind_ok _ _ _ _ _ (delete_array_ok m b cs Hb)). reflexivity.
Qed.

Lemma in_range_passes n i :
  0 <= n <= INT_MAX -> - n <= i < n -> out_of_bounds n i = false.
Proof.
  intros Hn Hi. destruct (Z.eq_dec n 0) as [-> | Hne]; [apply out_of_bounds_empty |].
  apply not_true_is_false. intros H.
  apply out_of_bounds_nonempty in H; [lia | lia |].
  unfold is_int. ints. lia.
Qed.

Lemma check_in_range m a i :
  0 <= length a <= INT_MAX -> - length a <= i < length a ->
  checkIndexOrSize a i m = Ok tt m.
Proof. intros Hn Hi. apply check_pass, in_range_passes; assumption. Qed.

(** ** [resize] *)

Lemma resize_spec m b cs l (n : nat) :
  blocks m !! b = Some (Block true true cs) ->
  (0 < n)%nat -> Z.of_nat n * sizeof <= PTRDIFF_MAX ->
  resize (MkSmartArray (Ptr b 0) l) (Z.of_nat n) m
  = Ok (MkSmartArray (Ptr (len (blocks m)) 0) (Z.of_nat n)) (resized m b cs n).
Proof.
  intros Hb Hn Hmax. unfold resize.
  destruct (Z.eqb_spec (Z.of_nat n) 0) as [E | _]; [lia |].
  rewrite (bind_ok _ _ _ _ _ (new_array_ok m (Z.of_nat n) None ltac:(lia) Hmax)).
  rewrite Nat2Z.id. simpl m_data.
  assert (Hlt : (b < len (blocks m))%nat) by (eapply lookup_lt_Some, Hb).
  set (m1 := push_block (Block true true (replicate n None)) m).
  assert (Hb1 : blocks m1 !! b = Some (Block true true cs)).
  { unfold m1. rewrite lookup_push_block_old by exact Hlt. exact Hb. }
  assert (Hn1 : blocks m1 !! len (blocks m) = Some (Block true true (replicate n None))).
  { apply lookup_push_block_new. }
  change (Ptr (len (blocks m)) 0) with (Ptr (len (blocks m)) (Z.of_nat 0)).
  rewrite (bind_ok _ _ _ _ _
             (std_copy_spec m1 b true cs (len (blocks m)) true (replicate n None) 0 n
                ltac:(lia) Hb1 Hn1 ltac:(rewrite length_replicate; lia))).
  rewrite splice_whole by (rewrite copied_length, length_replicate; reflexivity).
  unfold m1. rewrite set_block_push.
  erewrite (bind_ok _ _ _ _ _ (delete_array_ok _ b cs _)).
  - reflexivity.
Unshelve.
  simpl. rewrite lookup_app_l by exact Hlt. exact Hb.
Qed.

(** Growing from the empty state copies from the null pointer. *)
Lemma resize_from_null_faults m l (n : Z) :
  0 < n -> n * sizeof <= PTRDIFF_MAX ->
  resize (MkSmartArray Null l) n m = Fault NullAccess.
Proof.
  intros Hn Hmax. unfold resize.
  destruct (Z.eqb_spec n 0) as [E | _]; [lia |].
  rewrite (bind_ok _ _ _ _ _ (new_array_ok m n None ltac:(lia) Hmax)).
  apply bind_fault. unfold std_copy.
  destruct (Z.to_nat n) as [| k] eqn:E; [lia |].
  simpl. apply bind_fault. reflexivity.
Qed.

(** ** Out-of-range accesses *)

Lemma freed_buffer m b cs l :
  blocks m !! b = Some (Block true true cs) ->
  freed m (MkSmartArray (Ptr b 0) l) = set_block b (Block true false cs) m.
Proof. intros Hb. unfold freed. simpl. rewrite Hb. reflexivity. Qed.

Lemma elements_freed m b cs l :
  blocks m !! b = Some (Block true true cs) ->
  elements (freed m (MkSmartArray (Ptr b 0) l)) (MkSmartArray (Ptr b 0) l) = None.
Proof.
  intros Hb. rewrite (freed_buffer m b cs l Hb). unfold elements. simpl.
  rewrite list_lookup_insert_eq by (eapply lookup_lt_Some, Hb). reflexivity.
Qed.

(** C1 (amended).  On a non-empty array, an index [i >= length] or
    [i < -length] makes every access ([operator[]] used to read or to write,
    [put], [pop], [to_arr]) stop in the bounds check: the check releases the
    buffer with [delete[]] and gives up.  Nothing else changes: every other
    block and the record of stray loads are as before; but the slots of the
    array, readable before the call, are gone after it. *)
Theorem out_of_range_access_aborts m a cs i v :
  holds m a cs -> 0 < length a <= INT_MAX -> is_int i ->
  length a <= i \/ i < - length a ->
  (subscript a i m = OutOfBounds (freed m a) /\
   get a i m = OutOfBounds (freed m a) /\
   set a i v m = OutOfBounds (freed m a) /\
   put a v i m = OutOfBounds (freed m a) /\
   pop a i m = OutOfBounds (freed m a) /\
   to_arr a i m = OutOfBounds (freed m a)) /\
  elements m a = Some cs /\
  elements (freed m a) a = None /\
  stray_reads (freed m a) = stray_reads m /\
  (forall b', ptr_block (m_data a) <> Some b' ->
              blocks (freed m a) !! b' = blocks m !! b').
Proof.
  intros Hh Hlen Hi Hout.
  pose proof (holds_elements m a cs Hh) as Hel.
  destruct (holds_nonempty m a cs Hh ltac:(lia)) as (b & -> & Hb & Hlt).
  simpl in Hlen, Hout.
  assert (Hoob : out_of_bounds (Z.of_nat (len cs)) i = true)
    by (apply out_of_bounds_nonempty; assumption).
  pose proof (check_fail m b cs _ i Hb Hoob) as Hc.
  rewrite (freed_buffer m b cs _ Hb).
  split; [| split; [exact Hel | split; [| split; [reflexivity |]]]].
  - unfold get, set, subscript, put, pop, to_arr.
    rewrite !(bind_out_of_bounds _ _ _ _
                (bind_out_of_bounds _ _ _ _ Hc)).
    rewrite !(bind_out_of_bounds _ _ _ _ Hc). repeat split; reflexivity.
  - rewrite <- (freed_buffer m b cs (Z.of_nat (len cs)) Hb).
    apply (elements_freed m b cs _ Hb).
  - intros b' Hne. simpl in Hne. simpl.
    apply list_lookup_insert_ne. congruence.
Qed.

(** ** Element access *)

Lemma subscript_in_range m a i :
  0 <= length a <= INT_MAX -> - length a <= i < length a ->
  subscript a i m = Ok (ptr_add (m_data a) (resolve_get (length a) i)) m.
Proof.
  intros Hn Hi. unfold subscript.
  rewrite (bind_ok _ _ _ _ _ (check_in_range m a i Hn Hi)).
  reflexivity.
Qed.

(** C9.  With [0 <= i < length], [operator[]] returns the slot at forward
    position [i] of the buffer, reading through it yields the element stored
    there, and memory is untouched; with [-length <= i < 0], it returns what
    it returns for [length + i]. *)
Theorem subscript_valid_index m a cs i :
  holds m a cs -> length a <= INT_MAX ->
  (0 <= i < length a ->
     subscript a i m = Ok (ptr_add (m_data a) i) m /\
     get a i m = Ok (peek cs (Z.to_nat i)) m) /\
  (- length a <= i < 0 ->
     subscript a i m = subscript a (length a + i) m /\
     get a i m = get a (length a + i) m).
Proof.
  intros Hh Hmax.
  assert (Hn : 0 <= length a <= INT_MAX) by (destruct Hh as [E _]; lia).
  split; intros Hi.
  - assert (Hs : subscript a i m = Ok (ptr_add (m_data a) i) m).
    { rewrite subscript_in_range by lia. rewrite resolve_get_nonneg by lia. reflexivity. }
    split; [exact Hs |].
    unfold get. rewrite (bind_ok _ _ _ _ _ Hs).
    destruct (holds_nonempty m a cs Hh ltac:(lia)) as (b & -> & Hb & _).
    simpl ptr_add. simpl in Hi. rewrite Z.add_0_l.
    pose proof (load_inside m b true cs (Z.to_nat i) Hb ltac:(lia)) as Hl.
    rewrite Z2Nat.id in Hl by lia. exact Hl.
  - assert (Hs : subscript a i m = subscript a (length a + i) m).
    { rewrite !subscript_in_range by lia.
      rewrite resolve_get_neg by lia. rewrite resolve_get_nonneg by lia. reflexivity. }
    split; [exact Hs |]. unfold get, bind. rewrite Hs. reflexivity.
Qed.

(** ** [pop] *)

(** C8 (the code at the failing inputs).  On a well-formed non-empty array,
    [pop] with any index in range, [-1] included, ends in
    [delete (m_data + index)]: the operand is not a pointer that a
    non-array [new] returned (with [-1] it is one past the last slot), so
    the call has no defined outcome and [resize(length - 1)] is never
    reached. *)
Theorem pop_deletes_what_was_not_allocated m a cs i :
  holds m a cs -> 0 < length a <= INT_MAX -> - length a <= i < length a ->
  pop a i m = Fault BadDelete.
Proof.
  intros Hh Hlen Hi.
  destruct (holds_nonempty m a cs Hh ltac:(lia)) as (b & -> & Hb & _).
  simpl in Hlen, Hi.
  assert (Hc : checkIndexOrSize (MkSmartArray (Ptr b 0) (Z.of_nat (len cs))) i m
               = Ok tt m) by (apply check_in_range; simpl; lia).
  unfold pop. rewrite (bind_ok _ _ _ _ _ Hc).
  apply bind_fault. simpl.
  unfold delete_scalar, release. rewrite Hb. simpl.
  rewrite andb_false_r. reflexivity.
Qed.

(** Were the stray [delete] left out, the [resize(length - 1)] that follows
    would do what is expected of [pop]: a buffer one slot shorter holding
    the first [length - 1] elements, with no stray load. *)
Lemma resize_shrinks_by_one m b cs l :
  blocks m !! b = Some (Block true true cs) -> (1 < len cs)%nat ->
  Z.of_nat (len cs) <= INT_MAX ->
  exists a' m',
    resize (MkSmartArray (Ptr b 0) l) (Z.of_nat (len cs) - 1) m = Ok a' m' /\
    holds m' a' (take (len cs - 1) cs) /\
    stray_reads m' = stray_reads m.
Proof.
  intros Hb Hlen Hmax.
  replace (Z.of_nat (len cs) - 1) with (Z.of_nat (len cs - 1)) by lia.
  eexists _, _. split.
  - apply (resize_spec m b cs l (len cs - 1) Hb); [lia |].
    apply fits_int. ints. lia.
  - assert (Hlt : (b < len (blocks m))%nat) by (eapply lookup_lt_Some, Hb).
    unfold resized. rewrite strays_inside by lia.
    rewrite copied_prefix by lia. split.
    + split; simpl.
      * rewrite length_take. lia.
      * split; [reflexivity |].
        rewrite list_lookup_insert_ne by lia.
        rewrite lookup_app_r by lia. rewrite Nat.sub_diag. reflexivity.
    + simpl. apply app_nil_r.
Qed.

(** ** [to_arr] *)

(** C3 (the code at the failing inputs).  Asked for all [length] elements
    of a non-empty array, [to_arr] does not return a buffer: [length] is
    passed to the index check, which rejects it as it rejects the index
    [length], and releases the array's buffer. *)
Theorem to_arr_full_length_rejected m a cs :
  holds m a cs -> 0 < length a <= INT_MAX ->
  to_arr a (length a) m = OutOfBounds (freed m a) /\
  elements (freed m a) a = None.
Proof.
  intros Hh Hlen.
  destruct (holds_nonempty m a cs Hh ltac:(lia)) as (b & -> & Hb & _).
  simpl in Hlen. simpl length. split.
  - unfold to_arr. apply bind_out_of_bounds.
    rewrite (freed_buffer m b cs _ Hb). apply check_fail; [exact Hb |].
    apply out_of_bounds_nonempty; [lia | unfold is_int; ints; lia | lia].
  - apply (elements_freed m b cs _ Hb).
Qed.

(** The second half of the round trip fails on its own: [from_arr] with a
    positive length on a default-constructed array copies from the null
    pointer inside [resize]. *)
Lemma from_arr_on_default_faults m arr (n : Z) :
  0 < n -> n * sizeof <= PTRDIFF_MAX ->
  from_arr SmartArray_default arr n m = Fault NullAccess.
Proof.
  intros Hn Hmax. unfold from_arr. apply bind_fault.
  apply resize_from_null_faults; assumption.
Qed.

(** ** Growing *)

Lemma resized_blocks m b cs n :
  (b < len (blocks m))%nat ->
  blocks (resized m b cs n)
  = <[b := Block true false cs]> (blocks m) ++ [Block true true (copied cs 0 n)].
Proof. intros H. unfold resized. simpl. apply insert_app_l, H. Qed.

Lemma resized_new_block m b cs n :
  (b < len (blocks m))%nat ->
  blocks (resized m b cs n) !! len (blocks m)
  = Some (Block true true (copied cs 0 n)).
Proof.
  intros H. rewrite resized_blocks by exact H.
  rewrite lookup_app_r by (rewrite length_insert; lia).
  rewrite length_insert, Nat.sub_diag. reflexivity.
Qed.

Lemma resized_other_block m b cs n b' :
  (b' < len (blocks m))%nat -> b <> b' ->
  blocks (resized m b cs n) !! b' = blocks m !! b'.
Proof.
  intros H Hne. unfold resized. simpl.
  rewrite list_lookup_insert_ne by exact Hne. apply lookup_app_l, H.
Qed.

(** C5 (the code at the failing inputs).  Growing a buffer of [old] slots
    to [n > old] slots, [resize] runs [std::copy(m_data, m_data + n, arr)]:
    it loads [n] slots, the last [n - old] of them past the end of the old
    buffer, not [min(old, n)].  The array then has length [n], its first
    [old] slots are the old ones and the rest is whatever those loads
    delivered. *)
Theorem resize_reads_past_old_buffer m a cs (n : nat) :
  holds m a cs -> m_data a <> Null ->
  (len cs < n)%nat -> Z.of_nat n * sizeof <= PTRDIFF_MAX ->
  exists b a' m',
    m_data a = Ptr b 0 /\
    resize a (Z.of_nat n) m = Ok a' m' /\
    length a' = Z.of_nat n /\
    holds m' a' (cs ++ replicate (n - len cs) None) /\
    stray_reads m'
    = stray_reads m ++ ((fun j => (b, Z.of_nat j)) <$> seq (len cs) (n - len cs)).
Proof.
  intros Hh Hnn Hlen Hmax.
  destruct (holds_buffer m a cs Hh Hnn) as (b & -> & Hb & Hlt).
  eexists b, _, _. split; [reflexivity |]. split.
  - apply (resize_spec m b cs _ n Hb); [lia | exact Hmax].
  - split; [reflexivity |]. split.
    + split; simpl.
      * rewrite length_app, length_replicate. lia.
      * split; [reflexivity |].
        pose proof (resized_new_block m b cs n Hlt) as Hnew. simpl in Hnew.
        rewrite Hnew, copied_beyond by lia. reflexivity.
    + simpl. rewrite strays_beyond by lia. reflexivity.
Qed.

Lemma grow_size_bounds n : 0 < n -> n < grow_size n <= 2 * n.
Proof.
  intros H. unfold grow_size.
  pose proof (Z.div_mod (9 * n + 7) 8 ltac:(lia)).
  pose proof (Z.mod_pos_bound (9 * n + 7) 8 ltac:(lia)). lia.
Qed.

(** What [put] does on a non-empty array with an index in range: the buffer
    is replaced by one of [grow_size length] slots holding the old slots, and
    the value goes to the slot [resolve_put length index]. *)
Lemma put_spec m b cs v i :
  blocks m !! b = Some (Block true true cs) ->
  0 < Z.of_nat (len cs) <= INT_MAX ->
  - Z.of_nat (len cs) <= i < Z.of_nat (len cs) ->
  let n := Z.of_nat (len cs) in
  let g := Z.to_nat (grow_size n) in
  let slot := Z.to_nat (if i <? 0 then n + 1 + i else i) in
  put (MkSmartArray (Ptr b 0) n) v i m
  = Ok (MkSmartArray (Ptr (len (blocks m)) 0) (grow_size n))
       (set_block (len (blocks m))
          (Block true true (<[slot := Some v]> (copied cs 0 g)))
          (resized m b cs g)).
Proof.
  intros Hb Hn Hi n g slot.
  assert (Hlt : (b < len (blocks m))%nat) by (eapply lookup_lt_Some, Hb).
  pose proof (grow_size_bounds n ltac:(lia)) as Hg.
  assert (Hc : checkIndexOrSize (MkSmartArray (Ptr b 0) n) i m = Ok tt m)
    by (apply check_in_range; simpl; lia).
  unfold put. rewrite (bind_ok _ _ _ _ _ Hc). simpl length.
  assert (Hr : resize (MkSmartArray (Ptr b 0) n) (grow_size n) m
               = Ok (MkSmartArray (Ptr (len (blocks m)) 0) (grow_size n))
                    (resized m b cs g)).
  { rewrite <- (Z2Nat.id (grow_size n)) by lia.
    apply (resize_spec m b cs n g Hb); unfold g; [lia |].
    rewrite Z2Nat.id by lia. apply fits_int. ints. lia. }
  rewrite (bind_ok _ _ _ _ _ Hr). simpl m_data. simpl ptr_add.
  assert (Hslot : resolve_put n i = Z.of_nat slot).
  { unfold slot. destruct (Z.ltb_spec i 0).
    - rewrite resolve_put_neg by lia. lia.
    - rewrite resolve_put_nonneg by lia. lia. }
  rewrite Hslot, Z.add_0_l.
  rewrite (bind_ok _ _ _ _ _
             (store_inside _ _ true (copied cs 0 g) slot (Some v)
                (resized_new_block m b cs g Hlt)
                ltac:(rewrite copied_length; unfold slot, g;
                      destruct (Z.ltb_spec i 0); lia))).
  reflexivity.
Qed.

(** C2 (the code at the failing inputs).  [append] on an array of length 0,
    whatever its buffer pointer and whatever the memory: the bounds check
    passes, [resize(ceil(0 * 1.125))] is [resize(0)], which only resets the
    array to the empty state, and the value is then stored through the null
    pointer.  The zero is not special-cased. *)
Theorem append_to_empty_faults m (p : ptr) (v : T) :
  append (MkSmartArray p 0) v m = Fault NullAccess.
Proof.
  unfold append, put.
  rewrite (bind_ok _ _ _ _ _
             (check_pass m (MkSmartArray p 0) (-1) (out_of_bounds_empty (-1)))).
  reflexivity.
Qed.

(** For lengths 1 to 8 the growth step adds exactly one slot, and [append]
    puts the value in it (after a load one past the old buffer). *)
Lemma append_up_to_eight m a cs v :
  holds m a cs -> 1 <= length a <= 8 ->
  exists a' m',
    append a v m = Ok a' m' /\
    length a' = length a + 1 /\
    holds m' a' (cs ++ [Some v]).
Proof.
  intros Hh Hlen.
  destruct (holds_nonempty m a cs Hh ltac:(lia)) as (b & -> & Hb & Hlt).
  simpl in Hlen. simpl length.
  assert (Hg : grow_size (Z.of_nat (len cs)) = Z.of_nat (len cs) + 1).
  { unfold grow_size.
    assert (H : Z.of_nat (len cs) = 1 \/ Z.of_nat (len cs) = 2 \/
                Z.of_nat (len cs) = 3 \/ Z.of_nat (len cs) = 4 \/
                Z.of_nat (len cs) = 5 \/ Z.of_nat (len cs) = 6 \/
                Z.of_nat (len cs) = 7 \/ Z.of_nat (len cs) = 8) by lia.
    destruct H as [-> | [-> | [-> | [-> | [-> | [-> | [-> | ->]]]]]]]; reflexivity. }
  eexists _, _. split.
  - unfold append. apply (put_spec m b cs v (-1) Hb); [ints; lia | lia].
  - rewrite Hg. split; [reflexivity |]. split; simpl.
    + rewrite length_app. simpl. lia.
    + split; [reflexivity |].
      rewrite list_lookup_insert_eq
        by (rewrite length_insert, length_app; simpl; lia).
      do 2 f_equal.
      replace (Z.to_nat (Z.of_nat (len cs) + 1 + -1)) with (len cs) by lia.
      replace (Z.to_nat (Z.of_nat (len cs) + 1)) with (len cs + 1)%nat by lia.
      rewrite copied_beyond by lia.
      replace (len cs + 1 - len cs)%nat with 1%nat by lia. simpl.
      rewrite insert_app_r_alt by lia. rewrite Nat.sub_diag. reflexivity.
Qed.

(** C6 (amended).  With [-length <= i < 0] on a non-empty array, [put]
    resolves [i] against the length before the growth to the slot
    [length + 1 + i], one after the slot [length + i] that [operator[]]
    means by [i]: [-1] is the first slot past the old end, and the slot
    [length + i] keeps its element unless another negative index names it. *)
Theorem put_negative_index_slot m a cs v i :
  holds m a cs -> 0 < length a <= INT_MAX -> - length a <= i < 0 ->
  exists a' m' cs',
    put a v i m = Ok a' m' /\
    length a' = grow_size (length a) /\
    length a + 1 + i < grow_size (length a) /\
    cs' = <[Z.to_nat (length a + 1 + i) := Some v]>
            (cs ++ replicate (Z.to_nat (grow_size (length a) - length a)) None) /\
    holds m' a' cs' /\
    cs' !! Z.to_nat (length a + 1 + i) = Some (Some v) /\
    cs' !! Z.to_nat (length a + i) = cs !! Z.to_nat (length a + i).
Proof.
  intros Hh Hlen Hi.
  destruct (holds_nonempty m a cs Hh ltac:(lia)) as (b & -> & Hb & Hlt).
  simpl in Hlen, Hi. simpl length.
  pose proof (grow_size_bounds (Z.of_nat (len cs)) ltac:(lia)) as Hg.
  pose proof (put_spec m b cs v i Hb Hlen ltac:(lia)) as Hput. simpl in Hput.
  destruct (Z.ltb_spec i 0) as [_ | ?]; [| lia].
  rewrite copied_beyond in Hput by lia.
  replace (Z.to_nat (grow_size (Z.of_nat (len cs))) - len cs)%nat
    with (Z.to_nat (grow_size (Z.of_nat (len cs)) - Z.of_nat (len cs))) in Hput by lia.
  eexists _, _, _. split; [exact Hput |].
  split; [reflexivity |]. split; [lia |]. split; [reflexivity |]. split.
  - split; simpl.
    + rewrite length_insert, length_app, length_replicate. lia.
    + split; [reflexivity |].
      apply list_lookup_insert_eq. rewrite length_insert, length_app. simpl. lia.
  - split.
    + apply list_lookup_insert_eq. rewrite length_app, length_replicate. lia.
    + rewrite list_lookup_insert_ne by lia. apply lookup_app_l. lia.
Qed.

(** ** Concatenation *)

(** C4 (the code at the failing inputs).  [operator+] grows the first
    operand to [a.length + b.length] slots and then copies [a.length]
    elements of [b], not [b.length]: when [b] is the longer one, its last
    [b.length - a.length] elements do not arrive, and the tail of [a] holds
    what [resize] left there.  [b] is unchanged. *)
Theorem concat_copies_as_many_as_first_operand m a b cs ds :
  holds m a cs -> holds m b ds -> m_data a <> m_data b ->
  0 < length a <= length b -> length b <= INT_MAX ->
  exists a' m',
    concat a b m = Ok a' m' /\
    length a' = length a + length b /\
    holds m' a' (cs ++ take (len cs) ds ++ replicate (len ds - len cs) None) /\
    holds m' b ds.
Proof.
  intros Ha Hb Hne Hlen Hmax.
  destruct (holds_nonempty m a cs Ha ltac:(lia)) as (ba & -> & Hba & Hlta).
  destruct (holds_nonempty m b ds Hb ltac:(lia)) as (bb & -> & Hbb & Hltb).
  simpl in Hlen, Hmax. simpl length.
  assert (Hab : ba <> bb) by (intros ->; apply Hne; reflexivity).
  unfold concat, operator_plus. simpl length. unfold size_add.
  rewrite to_size_t_small by (ints; lia). rewrite <- Nat2Z.inj_add.
  rewrite (bind_ok _ _ _ _ _
             (resize_spec m ba cs _ (len cs + len ds) Hba ltac:(lia)
                ltac:(apply fits_int; ints; lia))).
  simpl m_data. simpl ptr_add. rewrite Z.add_0_l.
  assert (Hsrc : blocks (resized m ba cs (len cs + len ds)) !! bb
                 = Some (Block true true ds))
    by (rewrite resized_other_block by assumption; exact Hbb).
  pose proof (resized_new_block m ba cs (len cs + len ds) Hlta) as Hdst.
  rewrite (bind_ok _ _ _ _ _
             (std_copy_spec _ bb true ds (len (blocks m)) true _ (len cs) (len cs)
                ltac:(lia) Hsrc Hdst ltac:(rewrite copied_length; lia))).
  assert (Hcells : splice (copied cs 0 (len cs + len ds)) (len cs)
                     (copied ds 0 (len cs))
                   = cs ++ take (len cs) ds ++ replicate (len ds - len cs) None).
  { rewrite copied_beyond by lia. rewrite copied_prefix by lia.
    unfold splice. rewrite take_app_length.
    rewrite length_take. replace (len cs `min` len ds)%nat with (len cs) by lia.
    rewrite drop_app_add, drop_replicate.
    replace (len cs + len ds - len cs - len cs)%nat
      with (len ds - len cs)%nat by lia. reflexivity. }
  rewrite Hcells.
  eexists _, _. split; [reflexivity |]. split; [simpl; lia |]. split.
  - split; simpl.
    + rewrite !length_app, length_take, length_replicate. lia.
    + split; [reflexivity |].
      apply list_lookup_insert_eq.
      rewrite length_insert, length_app. simpl. lia.
  - split; simpl; [reflexivity | split; [reflexivity |]].
    rewrite list_lookup_insert_ne by lia.
    rewrite list_lookup_insert_ne by exact Hab.
    rewrite lookup_app_l by exact Hltb. exact Hbb.
Qed.

(** ** Copies and the reversed view *)

Lemma note_reads_nil m : note_reads [] m = m.
Proof. destruct m as [bl sr]. unfold note_reads. simpl. rewrite app_nil_r. reflexivity. Qed.

(** The copy constructor appends a block with the same slots. *)
Lemma SmartArray_copy_spec m a cs :
  holds m a cs -> length a * sizeof <= PTRDIFF_MAX ->
  SmartArray_copy a m
  = Ok (MkSmartArray (Ptr (len (blocks m)) 0) (length a))
       (push_block (Block true true cs) m).
Proof.
  intros Hh Hmax. unfold SmartArray_copy.
  assert (Hl : length a = Z.of_nat (len cs)) by apply Hh.
  rewrite (bind_ok _ _ _ _ _ (new_array_ok m (length a) None ltac:(lia) Hmax)).
  rewrite Hl, Nat2Z.id.
  destruct (m_data a) as [| b off | w] eqn:Hp;
    [| | destruct Hh as [_ Hcs]; rewrite Hp in Hcs; contradiction].
  - destruct Hh as [_ Hcs]. rewrite Hp in Hcs. subst cs. reflexivity.
  - destruct Hh as [_ Hb]. rewrite Hp in Hb. destruct Hb as [-> Hb].
    assert (Hlt : (b < len (blocks m))%nat) by (eapply lookup_lt_Some, Hb).
    change (Ptr (len (blocks m)) 0) with (Ptr (len (blocks m)) (Z.of_nat 0)) at 1.
    erewrite (bind_ok _ _ _ _ _
                (std_copy_spec _ b true cs (len (blocks m)) true
                   (replicate (len cs) None) 0 (len cs) ltac:(lia) _ _ _)).
    + rewrite strays_inside by lia. rewrite note_reads_nil.
      rewrite copied_all, splice_whole by (rewrite length_replicate; reflexivity).
      rewrite set_block_push. reflexivity.
Unshelve.
    * rewrite lookup_push_block_old by exact Hlt. exact Hb.
    * apply lookup_push_block_new.
    * rewrite length_replicate. lia.
Qed.

(** One round of the loop of [reverse]: slot [i] of [iter] goes to slot
    [n - 1 - i] of [buffer]; neither subscript trips the bounds check. *)
Lemma reverse_slot_spec m bi cs bb buf (n i : nat) :
  bi <> bb ->
  blocks m !! bi = Some (Block true true cs) ->
  blocks m !! bb = Some (Block true true buf) ->
  len cs = n -> len buf = n -> (i < n)%nat -> Z.of_nat n <= INT_MAX ->
  reverse_slot (MkSmartArray (Ptr bi 0) (Z.of_nat n))
               (MkSmartArray (Ptr bb 0) (Z.of_nat n)) i m
  = Ok tt (set_block bb (Block true true (<[(n - 1 - i)%nat := peek cs i]> buf)) m).
Proof.
  intros Hne Hi Hb Hcs Hbuf Hlt Hmax. unfold reverse_slot.
  rewrite to_int_small by (unfold is_int; ints; lia).
  rewrite reverse_index by lia.
  rewrite (bind_ok _ _ _ _ _
             (subscript_in_range m (MkSmartArray (Ptr bi 0) (Z.of_nat n)) (Z.of_nat i)
                ltac:(simpl; lia) ltac:(simpl; lia))).
  simpl length. simpl m_data.
  rewrite resolve_get_nonneg by lia. simpl ptr_add. rewrite Z.add_0_l.
  rewrite (bind_ok _ _ _ _ _ (load_inside m bi true cs i Hi ltac:(lia))).
  rewrite (bind_ok _ _ _ _ _
             (subscript_in_range m (MkSmartArray (Ptr bb 0) (Z.of_nat n))
                (- Z.of_nat i - 1) ltac:(simpl; lia) ltac:(simpl; lia))).
  simpl length. simpl m_data.
  rewrite resolve_get_neg by lia. simpl ptr_add. rewrite Z.add_0_l.
  replace (Z.of_nat n + (- Z.of_nat i - 1)) with (Z.of_nat (n - 1 - i)) by lia.
  apply (store_inside m bb true buf (n - 1 - i) (peek cs i) Hb). lia.
Qed.

Lemma reverse_loop_spec bi cs bb (n k : nat) :
  forall i buf m,
  bi <> bb ->
  blocks m !! bi = Some (Block true true cs) ->
  blocks m !! bb = Some (Block true true buf) ->
  len cs = n -> len buf = n -> (i + k <= n)%nat -> Z.of_nat n <= INT_MAX ->
  for_loop i k (reverse_slot (MkSmartArray (Ptr bi 0) (Z.of_nat n))
                             (MkSmartArray (Ptr bb 0) (Z.of_nat n))) m
  = Ok tt (set_block bb (Block true true (rev_into cs n buf i k)) m).
Proof.
  induction k as [| k IH]; intros i buf m Hne Hi Hb Hcs Hbuf Hk Hmax.
  - simpl. unfold ret, set_block.
    rewrite list_insert_id by exact Hb. destruct m; reflexivity.
  - simpl for_loop.
    rewrite (bind_ok _ _ _ _ _
               (reverse_slot_spec m bi cs bb buf n i Hne Hi Hb Hcs Hbuf ltac:(lia) Hmax)).
    rewrite (IH (S i) (<[(n - 1 - i)%nat := peek cs i]> buf)).
    + rewrite set_block_twice. reflexivity.
    + exact Hne.
    + rewrite lookup_set_block_ne by (intros E; apply Hne; symmetry; exact E).
      exact Hi.
    + apply lookup_set_block_eq. eapply lookup_lt_Some, Hb.
    + exact Hcs.
    + rewrite length_insert. exact Hbuf.
    + lia.
    + exact Hmax.
Qed.

Lemma rev_into_lookup cs (n k : nat) :
  forall i buf j,
  len buf = n -> (i + k <= n)%nat ->
  rev_into cs n buf i k !! j
  = if decide (n - i - k <= j < n - i)%nat
    then Some (peek cs (n - 1 - j)) else buf !! j.
Proof.
  induction k as [| k IH]; intros i buf j Hbuf Hk.
  - simpl. destruct (decide (n - i - 0 <= j < n - i)%nat); [lia | reflexivity].
  - simpl rev_into. rewrite IH by (rewrite ?length_insert; lia).
    destruct (decide (n - S i - k <= j < n - S i)%nat) as [H1 | H1];
      destruct (decide (n - i - S k <= j < n - i)%nat) as [H2 | H2];
      try reflexivity; try lia.
    + assert (j = (n - 1 - i)%nat) as -> by lia.
      rewrite list_lookup_insert_eq by lia. do 2 f_equal. lia.
    + apply list_lookup_insert_ne. lia.
Qed.

Lemma rev_into_all cs buf :
  len buf = len cs -> rev_into cs (len cs) buf 0 (len cs) = list.reverse cs.
Proof.
  intros Hbuf. apply list_eq. intros j.
  rewrite rev_into_lookup by lia.
  destruct (decide (len cs - 0 - len cs <= j < len cs - 0)%nat) as [H | H].
  - rewrite reverse_lookup by lia. unfold peek.
    replace (len cs - S j)%nat with (len cs - 1 - j)%nat by lia.
    destruct (lookup_lt_is_Some_2 cs (len cs - 1 - j) ltac:(lia)) as [x Hx].
    rewrite Hx. reflexivity.
  - rewrite !lookup_ge_None_2; [reflexivity | rewrite length_reverse; lia | lia].
Qed.

Lemma SmartArray_sized_spec m n :
  0 <= n -> n * sizeof <= PTRDIFF_MAX ->
  SmartArray_sized T0 n m
  = Ok (MkSmartArray (Ptr (len (blocks m)) 0) n)
       (push_block (Block true true (replicate (Z.to_nat n) (Some T0))) m).
Proof.
  intros Hn Hmax. unfold SmartArray_sized.
  rewrite (bind_ok _ _ _ _ _ (new_array_ok m n (Some T0) Hn Hmax)). reflexivity.
Qed.

(** [reverse] overwrites the slots of [iter] with their reverse, using a
    scratch block that it releases. *)
Lemma reverse_spec m bi cs :
  blocks m !! bi = Some (Block true true cs) ->
  Z.of_nat (len cs) <= INT_MAX ->
  reverse T0 (MkSmartArray (Ptr bi 0) (Z.of_nat (len cs))) m
  = Ok tt (push_block (Block true false (list.reverse cs))
             (set_block bi (Block true true (list.reverse cs)) m)).
Proof.
  intros Hi Hmax.
  assert (Hlt : (bi < len (blocks m))%nat) by (eapply lookup_lt_Some, Hi).
  unfold reverse. simpl length.
  rewrite (bind_ok _ _ _ _ _
             (SmartArray_sized_spec m (Z.of_nat (len cs)) ltac:(lia)
                ltac:(apply fits_int; ints; lia))).
  rewrite !Nat2Z.id. simpl length. simpl m_data.
  set (bb := len (blocks m)).
  set (m1 := push_block (Block true true (replicate (len cs) (Some T0))) m).
  assert (Hi1 : blocks m1 !! bi = Some (Block true true cs))
    by (unfold m1; rewrite lookup_push_block_old by exact Hlt; exact Hi).
  assert (Hb1 : blocks m1 !! bb = Some (Block true true (replicate (len cs) (Some T0))))
    by apply lookup_push_block_new.
  rewrite (bind_ok _ _ _ _ _
             (reverse_loop_spec bi cs bb (len cs) (len cs) 0 _ m1 ltac:(unfold bb; lia)
                Hi1 Hb1 eq_refl ltac:(apply length_replicate) ltac:(lia) Hmax)).
  rewrite rev_into_all by apply length_replicate.
  unfold m1, bb. rewrite set_block_push.
  set (m2 := push_block (Block true true (list.reverse cs)) m).
  assert (Hi2 : blocks m2 !! bi = Some (Block true true cs))
    by (unfold m2; rewrite lookup_push_block_old by exact Hlt; exact Hi).
  assert (Hb2 : blocks m2 !! len (blocks m) = Some (Block true true (list.reverse cs)))
    by apply lookup_push_block_new.
  simpl m_data. simpl length.
  change (Ptr bi 0) with (Ptr bi (Z.of_nat 0)).
  rewrite (bind_ok _ _ _ _ _
             (std_copy_spec m2 (len (blocks m)) true (list.reverse cs) bi true cs 0
                (len cs) ltac:(lia) Hb2 Hi2 ltac:(lia))).
  rewrite strays_inside by (rewrite length_reverse; lia). rewrite note_reads_nil.
  rewrite copied_prefix by (rewrite length_reverse; lia).
  rewrite take_ge by (rewrite length_reverse; lia).
  rewrite splice_whole by apply length_reverse.
  unfold SmartArray_destroy. simpl m_data.
  erewrite delete_array_ok.
  - f_equal. unfold push_block, set_block, m2. simpl. f_equal.
    rewrite insert_app_l by exact Hlt.
    rewrite insert_app_r_alt by (rewrite length_insert; lia).
    rewrite length_insert, Nat.sub_diag. reflexivity.
  - simpl. rewrite list_lookup_insert_ne by lia. apply lookup_push_block_new.
Qed.

(** The constructor of the view, from an lvalue. *)
Lemma SmartArrayReverse_ctor_spec m a cs :
  holds m a cs -> length a <= INT_MAX ->
  SmartArrayReverse_ctor T0 a m
  = Ok (MkSmartArrayReverse SmartArray_default
          (MkSmartArray (Ptr (S (len (blocks m))) 0) (length a)))
       (viewed m cs).
Proof.
  intros Hh Hmax. unfold SmartArrayReverse_ctor.
  assert (Hl : length a = Z.of_nat (len cs)) by apply Hh.
  assert (Hp : length a * sizeof <= PTRDIFF_MAX) by (apply fits_int; ints; lia).
  rewrite (bind_ok _ _ _ _ _ (SmartArray_copy_spec m a cs Hh Hp)).
  set (m1 := push_block (Block true true cs) m).
  assert (Harr : holds m1 (MkSmartArray (Ptr (len (blocks m)) 0) (length a)) cs).
  { split; [exact Hl | split; [reflexivity | apply lookup_push_block_new]]. }
  rewrite (bind_ok _ _ _ _ _ (SmartArray_copy_spec m1 _ cs Harr Hp)).
  simpl length. rewrite Hl.
  set (m2 := push_block (Block true true cs) m1).
  assert (Hlen1 : len (blocks m1) = S (len (blocks m)))
    by (unfold m1; simpl; rewrite length_app; simpl; lia).
  rewrite (bind_ok _ _ _ _ _
             (reverse_spec m2 (len (blocks m1)) cs
                ltac:(apply lookup_push_block_new) ltac:(lia))).
  unfold SmartArray_destroy. simpl m_data. rewrite !Hlen1.
  assert (Hb1 : blocks (push_block (Block true false (list.reverse cs))
                          (set_block (S (len (blocks m)))
                             (Block true true (list.reverse cs)) m2))
                !! len (blocks m) = Some (Block true true cs)).
  { unfold m2, m1. simpl.
    rewrite lookup_app_l by (rewrite length_insert, !length_app; simpl; lia).
    rewrite list_lookup_insert_ne by lia.
    rewrite <- app_assoc. rewrite lookup_app_r by lia.
    rewrite Nat.sub_diag. reflexivity. }
  rewrite (bind_ok _ _ _ _ _ (delete_array_ok _ (len (blocks m)) cs Hb1)).
  unfold ret. f_equal.
  unfold viewed, push_block, set_block, m2, m1. simpl. f_equal.
  rewrite <- (app_assoc (blocks m)). simpl.
  rewrite (insert_app_r_alt (blocks m)) by lia.
  replace (S (len (blocks m)) - len (blocks m))%nat with 1%nat by lia. simpl.
  rewrite <- (app_assoc (blocks m)). simpl.
  rewrite (insert_app_r_alt (blocks m)) by lia.
  rewrite Nat.sub_diag. reflexivity.
Qed.

Lemma iterate_block m b k cs (n : nat) :
  blocks m !! b = Some (Block k true cs) ->
  forall i, (i + n <= len cs)%nat ->
  iterate (Ptr b (Z.of_nat i)) n m = Ok (take n (drop i cs)) m.
Proof.
  intros Hb. induction n as [| n IH]; intros i Hn.
  - reflexivity.
  - simpl iterate.
    rewrite (bind_ok _ _ _ _ _ (load_inside m b k cs i Hb ltac:(lia))).
    simpl ptr_add. replace (Z.of_nat i + 1) with (Z.of_nat (S i)) by lia.
    rewrite (bind_ok _ _ _ _ _ (IH (S i) ltac:(lia))). unfold ret.
    destruct (lookup_lt_is_Some_2 cs i ltac:(lia)) as [x Hx].
    unfold peek. rewrite Hx. simpl.
    rewrite (drop_S cs x i Hx). reflexivity.
Qed.

(** C7.  Constructing a [SmartArrayReverse] over a well-formed array
    succeeds; the view's [iter] has the length of the source and holds its
    elements in reverse order, slot [i] being the source's slot
    [length - 1 - i]; iterating from [begin()] to [end()] reads exactly that
    sequence; the source still holds the same elements in the same order,
    and no load went astray. *)
Theorem reversed_view_of_array m a cs :
  holds m a cs -> length a <= INT_MAX ->
  exists view m',
    SmartArrayReverse_ctor T0 a m = Ok view m' /\
    length (iter view) = length a /\
    holds m' (iter view) (list.reverse cs) /\
    (forall i, (i < len cs)%nat ->
               list.reverse cs !! i = cs !! (len cs - 1 - i)%nat) /\
    iterate (rbegin_ view) (len cs) m' = Ok (list.reverse cs) m' /\
    holds m' a cs /\
    stray_reads m' = stray_reads m.
Proof.
  intros Hh Hmax. eexists _, _.
  split; [apply (SmartArrayReverse_ctor_spec m a cs Hh Hmax) |].
  assert (Hl : length a = Z.of_nat (len cs)) by apply Hh.
  assert (Hv : blocks (viewed m cs) !! S (len (blocks m))
               = Some (Block true true (list.reverse cs))).
  { simpl. rewrite lookup_app_r by lia.
    replace (S (len (blocks m)) - len (blocks m))%nat with 1%nat by lia.
    reflexivity. }
  split; [reflexivity |]. split; [| split; [| split; [| split]]].
  - split; simpl; [rewrite length_reverse; exact Hl |].
    split; [reflexivity | exact Hv].
  - intros i Hi. rewrite reverse_lookup by exact Hi. f_equal. lia.
  - unfold rbegin_. simpl.
    change (Ptr (S (len (blocks m))) 0) with (Ptr (S (len (blocks m))) (Z.of_nat 0)).
    rewrite (iterate_block _ _ true (list.reverse cs) (len cs) Hv 0)
      by (rewrite length_reverse; lia).
    rewrite drop_0, <- (length_reverse cs), firstn_all. reflexivity.
  - destruct Hh as [_ Hp]. split; [exact Hl |].
    destruct (m_data a) as [| b off | w]; [exact Hp | | exact Hp].
    destruct Hp as [-> Hb]. split; [reflexivity |].
    simpl. rewrite lookup_app_l by (eapply lookup_lt_Some, Hb). exact Hb.
  - reflexivity.
Qed.

(** ** What the operations leave alone *)

Lemma keeps_refl bv m : keeps bv m m.
Proof. split; [reflexivity | lia]. Qed.

Lemma frames_ret {A} bv (x : A) (Q : A -> Prop) : Q x -> frames (T:=T) bv (ret x) Q.
Proof.
  intros HQ m y m' _ H. unfold ret in H. injection H as <- <-.
  split; [apply keeps_refl | exact HQ].
Qed.

Lemma frames_raise {A} bv (Q : A -> Prop) : frames (T:=T) bv raise Q.
Proof. intros m y m' _ H. discriminate H. Qed.

Lemma frames_bind {A B} bv (c : M A) (k : A -> M B) (Q : A -> Prop) (R : B -> Prop) :
  frames (T:=T) bv c Q -> (forall x, Q x -> frames (T:=T) bv (k x) R) -> frames (T:=T) bv (bind c k) R.
Proof.
  intros Hc Hk m y m2 Hlt H.
  destruct (bind_ok_inv c k m y m2 H) as (x & m1 & H1 & H2).
  destruct (Hc m x m1 Hlt H1) as [[E1 L1] HQ].
  destruct (Hk x HQ m1 y m2 ltac:(lia) H2) as [[E2 L2] HR].
  split; [| exact HR]. split; [congruence | lia].
Qed.

Lemma frames_weaken {A} bv (c : M A) (Q R : A -> Prop) :
  frames (T:=T) bv c Q -> (forall x, Q x -> R x) -> frames (T:=T) bv c R.
Proof.
  intros Hc HQR m x m' Hlt H. destruct (Hc m x m' Hlt H) as [Hk HQ].
  split; [exact Hk | apply HQR, HQ].
Qed.

Lemma frames_for_loop bv (body : nat -> M unit) count :
  (forall i, frames (T:=T) bv (body i) (fun _ => True)) ->
  forall start, frames (T:=T) bv (for_loop start count body) (fun _ => True).
Proof.
  intros Hbody. induction count as [| count IH]; intros start; simpl.
  - apply frames_ret. exact I.
  - eapply frames_bind; [apply Hbody |]. intros _ _. apply IH.
Qed.

Lemma frames_for_int bv (body : nat -> M unit) n :
  (forall i, frames (T:=T) bv (body i) (fun _ => True)) ->
  frames (T:=T) bv (for_int n body) (fun _ => True).
Proof.
  intros Hbody. unfold for_int.
  eapply frames_bind; [apply frames_for_loop; exact Hbody |]. intros _ _.
  destruct (INT_MAX <? n); [| apply frames_ret; exact I].
  intros m x m' _ H. discriminate H.
Qed.

Lemma frames_load bv p : frames (T:=T) bv (load p) (fun _ => True).
Proof.
  intros m x m' _ H. unfold load in H.
  destruct p as [| b off | w]; [discriminate | | discriminate].
  destruct (blocks m !! b) as [blk |]; [| discriminate].
  destruct (b_live blk); [| discriminate].
  destruct (in_block (b_cells blk) off); injection H as <- <-;
    (split; [split; [reflexivity | simpl; lia] | exact I]).
Qed.

Lemma frames_store bv p v :
  ptr_block p <> Some bv -> frames (T:=T) bv (store p v) (fun _ => True).
Proof.
  intros Hne m x m' _ H. unfold store in H.
  destruct p as [| b off | w]; [discriminate | | discriminate].
  destruct (blocks m !! b) as [blk |]; [| discriminate].
  destruct (b_live blk); [| discriminate].
  destruct (in_block (b_cells blk) off); [| discriminate].
  injection H as <- <-. split; [| exact I]. split; simpl.
  - apply list_lookup_insert_ne. simpl in Hne. congruence.
  - rewrite length_insert. lia.
Qed.

Lemma frames_release bv k p :
  ptr_block p <> Some bv -> frames (T:=T) bv (release k p) (fun _ => True).
Proof.
  intros Hne m x m' _ H. unfold release in H.
  destruct p as [| b off | w]; [| | discriminate].
  - injection H as <- <-. split; [apply keeps_refl | exact I].
  - destruct (blocks m !! b) as [blk |]; [| discriminate].
    destruct (b_live blk && (off =? 0) && Bool.eqb (b_array blk) k); [| discriminate].
    injection H as <- <-. split; [| exact I]. split; simpl.
    + apply list_lookup_insert_ne. simpl in Hne. congruence.
    + rewrite length_insert. lia.
Qed.

Lemma frames_new_array bv n init :
  frames (T:=T) bv (new_array n init) (fun p => ptr_block p <> Some bv).
Proof.
  intros m x m' Hlt H. unfold new_array in H.
  destruct ((0 <=? n) && (n * sizeof <=? PTRDIFF_MAX)); [| discriminate].
  injection H as <- <-. split.
  - split; simpl; [apply lookup_app_l, Hlt | rewrite length_app; lia].
  - simpl. intros E. injection E as E. lia.
Qed.

Lemma ptr_block_add p n : ptr_block (ptr_add p n) = ptr_block p.
Proof.
  destruct p as [| b off | w]; simpl; [| reflexivity |].
  - destruct (n =? 0); reflexivity.
  - destruct (w + n =? 0); reflexivity.
Qed.

Lemma frames_copy_slot bv src dst i :
  ptr_block dst <> Some bv -> frames (T:=T) bv (copy_slot src dst i) (fun _ => True).
Proof.
  intros Hne. unfold copy_slot.
  eapply frames_bind; [apply frames_load |]. intros v _.
  apply frames_store. rewrite ptr_block_add. exact Hne.
Qed.

Lemma frames_std_copy bv src n dst :
  ptr_block dst <> Some bv -> frames (T:=T) bv (std_copy src n dst) (fun _ => True).
Proof.
  intros Hne. unfold std_copy. apply frames_for_loop.
  intros i. apply frames_copy_slot, Hne.
Qed.

Lemma frames_check bv a i :
  apart bv a -> frames (T:=T) bv (checkIndexOrSize a i) (fun _ => True).
Proof.
  intros Ha. unfold checkIndexOrSize.
  destruct (out_of_bounds (length a) i).
  - eapply frames_bind; [apply frames_release, Ha |]. intros _ _. apply frames_raise.
  - apply frames_ret. exact I.
Qed.

Lemma frames_resize bv a n :
  apart bv a -> frames (T:=T) bv (resize a n) (apart bv).
Proof.
  intros Ha. unfold resize. destruct (n =? 0).
  - apply frames_ret. unfold apart. simpl. discriminate.
  - eapply frames_bind; [apply frames_new_array |]. intros p Hp.
    eapply frames_bind; [apply frames_std_copy, Hp |]. intros _ _.
    eapply frames_bind; [apply frames_release, Ha |]. intros _ _.
    apply frames_ret. exact Hp.
Qed.

Lemma frames_put bv a v i : apart bv a -> frames (T:=T) bv (put a v i) (apart bv).
Proof.
  intros Ha. unfold put.
  eapply frames_bind; [apply frames_check, Ha |]. intros _ _.
  eapply frames_bind; [apply frames_resize, Ha |]. intros a' Ha'.
  eapply frames_bind;
    [apply frames_store; rewrite ptr_block_add; exact Ha' |].
  intros _ _. apply frames_ret, Ha'.
Qed.

Lemma frames_pop bv a i : apart bv a -> frames (T:=T) bv (pop a i) (apart bv).
Proof.
  intros Ha. unfold pop.
  eapply frames_bind; [apply frames_check, Ha |]. intros _ _.
  eapply frames_bind;
    [apply frames_release; rewrite ptr_block_add; exact Ha |].
  intros _ _. apply frames_resize, Ha.
Qed.

Lemma frames_plus bv a rhs :
  apart bv a -> frames (T:=T) bv (operator_plus a rhs) (apart bv).
Proof.
  intros Ha. unfold operator_plus.
  eapply frames_bind; [apply frames_resize, Ha |]. intros a' Ha'.
  eapply frames_bind;
    [apply frames_std_copy; rewrite ptr_block_add; exact Ha' |].
  intros _ _. apply frames_ret, Ha'.
Qed.

Lemma frames_from_arr bv a arr n : apart bv a -> frames (T:=T) bv (from_arr a arr n) (apart bv).
Proof.
  intros Ha. unfold from_arr.
  eapply frames_bind; [apply frames_resize, Ha |]. intros a' Ha'.
  eapply frames_bind;
    [apply frames_for_int; intros i; apply frames_copy_slot, Ha' |].
  intros _ _. apply frames_ret, Ha'.
Qed.

Lemma frames_mutate bv mu a : apart bv a -> frames (T:=T) bv (mutate mu a) (apart bv).
Proof.
  intros Ha. destruct mu; simpl.
  - apply frames_put, Ha.
  - apply frames_put, Ha.
  - apply frames_pop, Ha.
  - apply frames_plus, Ha.
  - apply frames_from_arr, Ha.
Qed.

(** A run of mutations on an array never touches a block that is not the
    array's buffer when the run starts. *)
Lemma mutates_keeps bv a m a' m' :
  mutates a m a' m' -> (bv < len (blocks m))%nat -> apart bv a ->
  keeps bv m m' /\ apart bv a'.
Proof.
  induction 1 as [a m | mu a m a1 m1 a2 m2 Hstep _ IH]; intros Hlt Ha.
  - split; [apply keeps_refl | exact Ha].
  - destruct (frames_mutate bv mu a Ha m a1 m1 Hlt Hstep) as [[E1 L1] Ha1].
    destruct (IH ltac:(lia) Ha1) as [[E2 L2] Ha2].
    split; [| exact Ha2]. split; [congruence | lia].
Qed.

(** The view owns a copy: its [iter] is a block of its own.  In a run of
    [put], [append], [pop], [operator+] (with another array or with the
    source itself) and [from_arr] on the source in which every call has a
    defined outcome and returns, the view's buffer is still live, still has
    the length of the source at construction and still holds the reversed
    elements, and iterating the view reads exactly them.  A call without a
    defined outcome ends the run, and nothing is said of the view after it:
    that is every [pop] of an array that owns its buffer, and every
    [operator+] that stores past the new buffer. *)
Theorem view_unaffected_by_source_mutations m a cs view m1 a' m' :
  holds m a cs -> length a <= INT_MAX ->
  SmartArrayReverse_ctor T0 a m = Ok view m1 ->
  mutates a m1 a' m' ->
  length (iter view) = Z.of_nat (len cs) /\
  holds m' (iter view) (list.reverse cs) /\
  elements m' (iter view) = elements m1 (iter view) /\
  iterate (rbegin_ view) (len cs) m' = Ok (list.reverse cs) m'.
Proof.
  intros Hh Hmax Hctor Hrun.
  rewrite (SmartArrayReverse_ctor_spec m a cs Hh Hmax) in Hctor.
  injection Hctor as <- <-.
  assert (Hl : length a = Z.of_nat (len cs)) by apply Hh.
  set (bv := S (len (blocks m))).
  assert (Hv : blocks (viewed m cs) !! bv = Some (Block true true (list.reverse cs))).
  { unfold bv. simpl. rewrite lookup_app_r by lia.
    replace (S (len (blocks m)) - len (blocks m))%nat with 1%nat by lia.
    reflexivity. }
  assert (Hap : apart bv a).
  { unfold apart. destruct Hh as [_ Hp].
    destruct (m_data a) as [| b off | w]; [discriminate | | discriminate].
    destruct Hp as [_ Hb]. apply lookup_lt_Some in Hb.
    simpl. intros E. injection E as E. unfold bv in E. lia. }
  destruct (mutates_keeps bv a _ a' m' Hrun (lookup_lt_Some _ _ _ Hv) Hap)
    as [[E _] _].
  rewrite Hv in E.
  assert (Hview : holds m' (MkSmartArray (Ptr bv 0) (length a)) (list.reverse cs)).
  { split; simpl; [rewrite length_reverse; exact Hl |].
    split; [reflexivity | exact E]. }
  assert (Hview1 : holds (viewed m cs) (MkSmartArray (Ptr bv 0) (length a))
                     (list.reverse cs)).
  { split; simpl; [rewrite length_reverse; exact Hl |].
    split; [reflexivity | exact Hv]. }
  simpl iter. fold bv.
  split; [exact Hl |]. split; [exact Hview |]. split.
  - rewrite (holds_elements _ _ _ Hview), (holds_elements _ _ _ Hview1). reflexivity.
  - unfold rbegin_. simpl.
    change (Ptr bv 0) with (Ptr bv (Z.of_nat 0)).
    rewrite (iterate_block m' bv true (list.reverse cs) (len cs) E 0)
      by (rewrite length_reverse; lia).
    rewrite drop_0, <- (length_reverse cs), firstn_all. reflexivity.
Qed.

(** ** Construction, copy and destruction *)

(** [SmartArray(n)], for [n] up to [INT_MAX], returns an array of [n]
    value-initialised slots in a block of its own, for [n = 0] too (a
    buffer of no slots, not the null pointer); when [n * sizeof(T)] is past
    the largest object size the allocation fails. *)
Theorem sized_array_holds_defaults m (n : Z) :
  (0 <= n <= INT_MAX ->
   exists a m',
     SmartArray_sized T0 n m = Ok a m' /\
     length a = n /\ m_data a = Ptr (len (blocks m)) 0 /\
     holds m' a (replicate (Z.to_nat n) (Some T0)) /\
     stray_reads m' = stray_reads m /\
     (forall b, (b < len (blocks m))%nat -> blocks m' !! b = blocks m !! b)) /\
  (PTRDIFF_MAX < n * sizeof -> SmartArray_sized T0 n m = Fault AllocFailure).
Proof.
  split.
  - intros Hn. eexists _, _.
    split; [apply (SmartArray_sized_spec m n ltac:(lia));
            apply fits_int; ints; lia |].
    split; [reflexivity |]. split; [reflexivity |]. split; [| split].
    + split; simpl; [rewrite length_replicate; lia |].
      split; [reflexivity | apply lookup_push_block_new].
    + reflexivity.
    + intros b Hb. apply lookup_push_block_old, Hb.
  - intros Hn. unfold SmartArray_sized. apply bind_fault. unfold new_array.
    destruct (Z.leb_spec (n * sizeof) PTRDIFF_MAX) as [H | _]; [lia |].
    rewrite andb_false_r. reflexivity.
Qed.

(** The copy constructor makes a deep copy: the new array has a buffer of
    its own with the same elements (a buffer even when the source has
    none), and the source is as it was. *)
Theorem copy_is_deep m a cs :
  holds m a cs -> length a * sizeof <= PTRDIFF_MAX ->
  exists a' m',
    SmartArray_copy a m = Ok a' m' /\
    length a' = length a /\
    holds m' a' cs /\ holds m' a cs /\
    m_data a' = Ptr (len (blocks m)) 0 /\ m_data a' <> m_data a /\
    stray_reads m' = stray_reads m.
Proof.
  intros Hh Hmax. eexists _, _.
  split; [apply (SmartArray_copy_spec m a cs Hh Hmax) |].
  assert (Hl : length a = Z.of_nat (len cs)) by apply Hh.
  split; [reflexivity |]. split; [| split; [| split; [reflexivity | split]]].
  - split; [exact Hl | split; [reflexivity | apply lookup_push_block_new]].
  - split; [exact Hl |]. destruct Hh as [_ Hp].
    destruct (m_data a) as [| b off | w]; [exact Hp | | exact Hp].
    destruct Hp as [-> Hb]. split; [reflexivity |].
    rewrite lookup_push_block_old by (eapply lookup_lt_Some, Hb). exact Hb.
  - simpl. destruct Hh as [_ Hp].
    destruct (m_data a) as [| b off | w]; [discriminate | | discriminate].
    destruct Hp as [_ Hb]. apply lookup_lt_Some in Hb.
    intros E. injection E as E _. lia.
  - reflexivity.
Qed.

Lemma holds_kept bv m m' a cs :
  holds m a cs -> ptr_block (m_data a) = Some bv -> keeps bv m m' -> holds m' a cs.
Proof.
  intros [Hl Hp] Hb [E _]. split; [exact Hl |].
  destruct (m_data a) as [| b off | w]; [exact Hp | | exact Hp].
  simpl in Hb. injection Hb as ->. destruct Hp as [-> Hp].
  split; [reflexivity |]. rewrite E. exact Hp.
Qed.

Lemma holds_null m m' a cs : holds m a cs -> m_data a = Null -> holds m' a cs.
Proof.
  intros [Hl Hp] Hn. split; [exact Hl |]. rewrite Hn in *. exact Hp.
Qed.

(** A copy and its source do not see each other's mutations, as long as
    these have a defined outcome: after a run of [put], [append], [pop],
    [operator+] (with another array or with the array itself) and
    [from_arr] on one of them in which every call has a defined outcome and
    returns, the other still holds the elements it had.  A call without a
    defined outcome ends the run (every [pop] of an array that owns its
    buffer, every [operator+] that stores past the new buffer), and nothing
    is said of either array after it. *)
Theorem copy_and_source_are_independent m a cs a' m1 :
  holds m a cs -> length a * sizeof <= PTRDIFF_MAX ->
  SmartArray_copy a m = Ok a' m1 ->
  (forall a2 m2, mutates a' m1 a2 m2 -> holds m2 a cs) /\
  (forall a2 m2, mutates a m1 a2 m2 -> holds m2 a' cs).
Proof.
  intros Hh Hmax Hcopy.
  rewrite (SmartArray_copy_spec m a cs Hh Hmax) in Hcopy.
  injection Hcopy as <- <-.
  assert (Hl : length a = Z.of_nat (len cs)) by apply Hh.
  set (bn := len (blocks m)).
  set (m1 := push_block (Block true true cs) m).
  assert (Hnew : holds m1 (MkSmartArray (Ptr bn 0) (length a)) cs).
  { split; [exact Hl | split; [reflexivity | apply lookup_push_block_new]]. }
  assert (Hlen1 : (bn < len (blocks m1))%nat)
    by (unfold m1, bn; simpl; rewrite length_app; simpl; lia).
  split; intros a2 m2 Hrun.
  - destruct (m_data a) as [| b off | w] eqn:Hp;
      [| | destruct Hh as [_ H]; rewrite Hp in H; contradiction].
    + apply (holds_null m); assumption.
    + assert (Hb : blocks m !! b = Some (Block true true cs)).
      { destruct Hh as [_ H]. rewrite Hp in H. apply H. }
      assert (Hlt : (b < len (blocks m))%nat) by (eapply lookup_lt_Some, Hb).
      assert (Hold : holds m1 a cs).
      { split; [exact Hl |]. rewrite Hp. destruct Hh as [_ H]. rewrite Hp in H.
        destruct H as [-> _]. split; [reflexivity |].
        unfold m1. rewrite lookup_push_block_old by exact Hlt. exact Hb. }
      destruct (mutates_keeps b _ m1 a2 m2 Hrun) as [Hk _].
      * unfold bn in Hlen1. lia.
      * unfold apart. simpl. intros E. injection E as E. unfold bn in E. lia.
      * apply (holds_kept b m1); [exact Hold | rewrite Hp; reflexivity | exact Hk].
  - destruct (mutates_keeps bn a m1 a2 m2 Hrun Hlen1) as [Hk _].
    + unfold apart. destruct Hh as [_ H].
      destruct (m_data a) as [| b off | w]; [discriminate | | discriminate].
      destruct H as [_ Hb]. apply lookup_lt_Some in Hb.
      simpl. intros E. injection E as E. unfold bn in E. lia.
    + apply (holds_kept bn m1); [exact Hnew | reflexivity | exact Hk].
Qed.

(** The destructor releases the buffer, once: after it the elements are
    gone, indexing the array is a use of released storage, and a second
    destruction is a double [delete[]]. *)
Theorem destroy_releases_once m a cs :
  holds m a cs -> m_data a <> Null -> length a <= INT_MAX ->
  SmartArray_destroy a m = Ok tt (freed m a) /\
  elements (freed m a) a = None /\
  SmartArray_destroy a (freed m a) = Fault BadDelete /\
  (forall i, - length a <= i < length a -> get a i (freed m a) = Fault DeadAccess) /\
  (forall b, ptr_block (m_data a) <> Some b ->
             blocks (freed m a) !! b = blocks m !! b).
Proof.
  intros Hh Hnn Hmax.
  destruct (holds_buffer m a cs Hh Hnn) as (b & -> & Hb & Hlt).
  rewrite (freed_buffer m b cs _ Hb).
  assert (Hdead : blocks (set_block b (Block true false cs) m) !! b
                  = Some (Block true false cs))
    by (apply lookup_set_block_eq, Hlt).
  split; [apply (delete_array_ok m b cs Hb) |]. split; [| split; [| split]].
  - rewrite <- (freed_buffer m b cs (Z.of_nat (len cs)) Hb).
    apply (elements_freed m b cs _ Hb).
  - unfold SmartArray_destroy, delete_array, release. cbn [m_data].
    rewrite Hdead. reflexivity.
  - intros i Hi. simpl in Hi, Hmax. unfold get.
    rewrite (bind_ok _ _ _ _ _
               (subscript_in_range _ (MkSmartArray (Ptr b 0) (Z.of_nat (len cs))) i
                  ltac:(simpl; lia) ltac:(simpl; lia))).
    unfold load. cbn [ptr_add m_data]. rewrite Hdead. reflexivity.
  - intros b' Hne. simpl in Hne. apply lookup_set_block_ne. congruence.
Qed.

(** ** Reading and writing through [operator[]] *)

(** [a[i] = v] with [i] in range, negative or not, changes the one slot
    that [i] names and nothing else, and [a[i]] then reads [v]. *)
Theorem set_then_get m a cs i (v : T) :
  holds m a cs -> length a <= INT_MAX -> - length a <= i < length a ->
  let k := Z.to_nat (if i <? 0 then length a + i else i) in
  exists m',
    set a i v m = Ok tt m' /\
    holds m' a (<[k := Some v]> cs) /\
    get a i m' = Ok (Some v) m' /\
    stray_reads m' = stray_reads m /\
    (forall b, ptr_block (m_data a) <> Some b -> blocks m' !! b = blocks m !! b).
Proof.
  intros Hh Hmax Hi k.
  destruct (holds_nonempty m a cs Hh ltac:(lia)) as (b & -> & Hb & Hlt).
  simpl in Hmax, Hi. simpl length in k.
  assert (Hk : resolve_get (Z.of_nat (len cs)) i = Z.of_nat k /\ (k < len cs)%nat).
  { unfold k. destruct (Z.ltb_spec i 0).
    - rewrite resolve_get_neg by lia. lia.
    - rewrite resolve_get_nonneg by lia. lia. }
  destruct Hk as [Hres Hklt].
  assert (Hsub : forall m0, subscript (MkSmartArray (Ptr b 0) (Z.of_nat (len cs))) i m0
                            = Ok (Ptr b (Z.of_nat k)) m0).
  { intros m0. rewrite subscript_in_range by (simpl; lia).
    simpl. rewrite Hres, Z.add_0_l. reflexivity. }
  set (m' := set_block b (Block true true (<[k := Some v]> cs)) m).
  assert (Hb' : blocks m' !! b = Some (Block true true (<[k := Some v]> cs)))
    by (apply lookup_set_block_eq, Hlt).
  exists m'. split; [| split; [| split; [| split]]].
  - unfold set. rewrite (bind_ok _ _ _ _ _ (Hsub m)).
    apply (store_inside m b true cs k (Some v) Hb Hklt).
  - split; simpl; [rewrite length_insert; reflexivity |].
    split; [reflexivity | exact Hb'].
  - unfold get. rewrite (bind_ok _ _ _ _ _ (Hsub m')).
    rewrite (load_inside m' b true _ k Hb') by (rewrite length_insert; exact Hklt).
    unfold peek. rewrite list_lookup_insert_eq by exact Hklt. reflexivity.
  - reflexivity.
  - intros b' Hne. simpl in Hne. apply lookup_set_block_ne. congruence.
Qed.

Lemma resolve_get_empty i : is_int i -> resolve_get 0 i = i.
Proof.
  unfold is_int. intros Hi. unfold resolve_get.
  destruct (Z.ltb_spec i 0) as [Hneg | _]; [| reflexivity].
  unfold size_add. rewrite Z.add_0_l.
  rewrite (to_size_t_neg i) by (ints; lia).
  rewrite (to_size_t_small (i + SIZE_MOD)) by (ints; lia).
  unfold to_int. ints.
  replace (i + 18446744073709551616 + 2 ^ 31)
    with ((i + 2 ^ 31) + 4294967296 * 2 ^ 32) by lia.
  rewrite Z_mod_plus_full. rewrite Z.mod_small; lia.
Qed.

Lemma resolve_put_empty i :
  is_int i -> resolve_put 0 i = if i <? 0 then i + 1 else i.
Proof.
  unfold is_int. intros Hi. unfold resolve_put.
  destruct (Z.ltb_spec i 0) as [Hneg | Hpos].
  - unfold size_add. change (to_size_t (0 + 1)) with 1.
    rewrite (to_size_t_neg i) by (ints; lia).
    destruct (Z.eq_dec i (-1)) as [-> | Hne]; [reflexivity |].
    rewrite to_size_t_small by (ints; lia).
    unfold to_int. ints.
    replace (1 + (i + 18446744073709551616) + 2 ^ 31)
      with ((i + 1 + 2 ^ 31) + 4294967296 * 2 ^ 32) by lia.
    rewrite Z_mod_plus_full. rewrite Z.mod_small; lia.
  - rewrite to_size_t_small by (ints; lia).
    apply to_int_small. unfold is_int. ints. lia.
Qed.

(** On a default-constructed array the bounds check rejects no index at
    all.  [operator[]] hands out the null pointer moved by [i] slots, so
    reading, writing and [put] are accesses through the null pointer or an
    offset from it for every index.  [pop] resolves its index to [i + 1] or
    [i]: for [0] and [-1] that is slot 0, the [delete] of the null pointer
    does nothing and [resize] is asked for [0 - 1] slots, computed in
    [size_t]; for every other index [pop] stops before, at the [delete] of
    an address that is no object's. *)
Theorem default_array_rejects_no_index m i (v : T) :
  is_int i ->
  checkIndexOrSize SmartArray_default i m = Ok tt m /\
  subscript SmartArray_default i m = Ok (ptr_add Null i) m /\
  get SmartArray_default i m = Fault NullAccess /\
  set SmartArray_default i v m = Fault NullAccess /\
  put SmartArray_default v i m = Fault NullAccess /\
  pop SmartArray_default i m
  = Fault (if (i =? 0) || (i =? -1) then AllocFailure else BadDelete).
Proof.
  intros Hi.
  assert (Hc : checkIndexOrSize SmartArray_default i m = Ok tt m)
    by apply (check_pass m SmartArray_default i (out_of_bounds_empty i)).
  assert (Hs : subscript SmartArray_default i m = Ok (ptr_add Null i) m).
  { unfold subscript. rewrite (bind_ok _ _ _ _ _ Hc).
    simpl length. simpl m_data. rewrite (resolve_get_empty i Hi). reflexivity. }
  split; [exact Hc |]. split; [exact Hs |]. split; [| split; [| split]].
  - unfold get. rewrite (bind_ok _ _ _ _ _ Hs).
    simpl. destruct (i =? 0); reflexivity.
  - unfold set. rewrite (bind_ok _ _ _ _ _ Hs).
    simpl. destruct (i =? 0); reflexivity.
  - unfold put. rewrite (bind_ok _ _ _ _ _ Hc). simpl length.
    change (resize SmartArray_default (grow_size 0)) with (@erase T SmartArray_default).
    unfold erase at 1. rewrite (bind_ok _ _ _ _ _ eq_refl). simpl m_data.
    apply bind_fault. simpl. destruct (resolve_put 0 i =? 0); reflexivity.
  - unfold pop. rewrite (bind_ok _ _ _ _ _ Hc). simpl length. simpl m_data.
    rewrite (resolve_put_empty i Hi). unfold is_int in Hi.
    destruct (Z.ltb_spec i 0) as [Hneg | Hpos].
    + destruct (Z.eqb_spec (i + 1) 0) as [E | E].
      * assert (i = -1) as -> by lia.
        rewrite (bind_ok (delete_scalar (ptr_add Null (-1 + 1))) _ m tt m eq_refl).
        apply resize_too_large. reflexivity.
      * destruct (Z.eqb_spec i 0) as [? | _]; [lia |].
        destruct (Z.eqb_spec i (-1)) as [? | _]; [lia |].
        apply bind_fault. simpl. destruct (Z.eqb_spec (i + 1) 0); [lia | reflexivity].
    + destruct (Z.eqb_spec i 0) as [-> | E];
        [rewrite (bind_ok (delete_scalar (ptr_add Null 0)) _ m tt m eq_refl);
         apply resize_too_large; reflexivity |].
      destruct (Z.eqb_spec i (-1)) as [? | _]; [lia |].
      apply bind_fault. simpl. destruct (Z.eqb_spec i 0); [lia | reflexivity].
Qed.

(** A range-based [for] over an array visits exactly its elements, in
    order, from [begin()] up to [end()], without touching memory. *)
Theorem iteration_visits_the_elements m a cs :
  holds m a cs ->
  iterate (begin_ a) (len cs) m = Ok cs m /\
  end_ a = ptr_add (begin_ a) (Z.of_nat (len cs)).
Proof.
  intros Hh. split.
  - unfold begin_. destruct Hh as [_ Hp].
    destruct (m_data a) as [| b off | w]; [| | contradiction].
    + subst cs. reflexivity.
    + destruct Hp as [-> Hb].
      change (Ptr b 0) with (Ptr b (Z.of_nat 0)).
      rewrite (iterate_block m b true cs (len cs) Hb 0) by lia.
      rewrite drop_0, firstn_all. reflexivity.
  - unfold end_, begin_. destruct Hh as [-> _]. reflexivity.
Qed.

(** ** Bulk conversion *)

Lemma strays_from_start b n0 n :
  strays b n0 0 n = (fun j => (b, Z.of_nat j)) <$> seq n0 (n - n0).
Proof.
  destruct (decide (n0 <= n)%nat) as [H | H].
  - apply strays_beyond, H.
  - rewrite strays_inside by lia.
    replace (n - n0)%nat with 0%nat by lia. reflexivity.
Qed.

(** [to_arr(n)] with [n] in range and not zero returns a new buffer with
    the first [n] elements, or the first [length + n] when [n] is negative:
    the default argument [-1] leaves the last element out.  The array is
    untouched and no load goes astray.  [to_arr(0)] returns the null
    pointer and allocates nothing. *)
Theorem to_arr_copies_a_prefix m a cs n :
  holds m a cs -> length a <= INT_MAX ->
  (- length a <= n < length a -> n <> 0 ->
   let k := Z.to_nat (if n <? 0 then length a + n else n) in
   to_arr a n m
   = Ok (Ptr (len (blocks m)) 0) (push_block (Block true true (take k cs)) m)) /\
  to_arr a 0 m = Ok Null m.
Proof.
  intros Hh Hmax.
  assert (Hl : length a = Z.of_nat (len cs)) by apply Hh.
  split.
  - intros Hn Hnz k.
    destruct (holds_nonempty m a cs Hh ltac:(lia)) as (b & -> & Hb & Hlt).
    simpl in Hmax, Hn. simpl length in k.
    assert (Hk : resolve_get (Z.of_nat (len cs)) n = Z.of_nat k /\ (k <= len cs)%nat).
    { unfold k. destruct (Z.ltb_spec n 0).
      - rewrite resolve_get_neg by lia. lia.
      - rewrite resolve_get_nonneg by lia. lia. }
    destruct Hk as [Hres Hkle].
    unfold to_arr.
    rewrite (bind_ok _ _ _ _ _
               (check_in_range m (MkSmartArray (Ptr b 0) (Z.of_nat (len cs))) n
                  ltac:(simpl; lia) ltac:(simpl; lia))).
    destruct (Z.eqb_spec n 0) as [E | _]; [lia |].
    simpl length. simpl m_data. rewrite Hres.
    rewrite to_size_t_small by (ints; lia).
    rewrite (bind_ok _ _ _ _ _
               (new_array_ok m (Z.of_nat k) None ltac:(lia)
                  ltac:(apply fits_int; ints; lia))).
    rewrite Nat2Z.id.
    set (m1 := push_block (Block true true (replicate k None)) m).
    assert (Hb1 : blocks m1 !! b = Some (Block true true cs))
      by (unfold m1; rewrite lookup_push_block_old by exact Hlt; exact Hb).
    assert (Hn1 : blocks m1 !! len (blocks m) = Some (Block true true (replicate k None)))
      by apply lookup_push_block_new.
    change (Ptr (len (blocks m)) 0) with (Ptr (len (blocks m)) (Z.of_nat 0)) at 1.
    rewrite (bind_ok _ _ _ _ _
               (std_copy_spec m1 b true cs (len (blocks m)) true (replicate k None) 0 k
                  ltac:(lia) Hb1 Hn1 ltac:(rewrite length_replicate; lia))).
    rewrite strays_inside by lia. rewrite note_reads_nil.
    rewrite copied_prefix by exact Hkle.
    rewrite splice_whole by (rewrite length_take, length_replicate; lia).
    unfold m1. rewrite set_block_push. reflexivity.
  - unfold to_arr.
    destruct (Z.eq_dec (length a) 0) as [E | E].
    + rewrite (bind_ok _ _ _ _ _ (check_pass m a 0 ltac:(rewrite E; apply out_of_bounds_empty))).
      reflexivity.
    + rewrite (bind_ok _ _ _ _ _ (check_in_range m a 0 ltac:(lia) ltac:(lia))).
      reflexivity.
Qed.

Lemma fill_from_array m bn ks init bs kd ds (n : nat) :
  bs <> bn ->
  blocks m !! bn = Some (Block ks true init) ->
  blocks m !! bs = Some (Block kd true ds) ->
  len init = n -> (n <= len ds)%nat ->
  for_loop 0 n (copy_slot (Ptr bs 0) (Ptr bn 0)) m
  = Ok tt (set_block bn (Block ks true (take n ds)) m).
Proof.
  intros Hne Hn Hs Hinit Hle.
  change (Ptr bn 0) with (Ptr bn (Z.of_nat 0)).
  rewrite (copy_loop_spec bs kd ds bn ks 0 n 0 init m Hne Hs Hn ltac:(lia)).
  rewrite strays_inside by lia. rewrite note_reads_nil.
  rewrite copied_prefix by exact Hle.
  rewrite splice_whole by (rewrite length_take; lia). reflexivity.
Qed.

Lemma from_arr_run m b cs l bs ks ds (n : nat) :
  blocks m !! b = Some (Block true true cs) ->
  blocks m !! bs = Some (Block ks true ds) -> bs <> b ->
  (0 < n <= len ds)%nat -> Z.of_nat n <= INT_MAX ->
  from_arr (MkSmartArray (Ptr b 0) l) (Ptr bs 0) (Z.of_nat n) m
  = Ok (MkSmartArray (Ptr (len (blocks m)) 0) (Z.of_nat n))
       (set_block (len (blocks m)) (Block true true (take n ds)) (resized m b cs n)).
Proof.
  intros Hb Hs Hbs Hn Hmax.
  assert (Hfit : Z.of_nat n * sizeof <= PTRDIFF_MAX) by (apply fits_int; ints; lia).
  assert (Hlt : (b < len (blocks m))%nat) by (eapply lookup_lt_Some, Hb).
  assert (Hlts : (bs < len (blocks m))%nat) by (eapply lookup_lt_Some, Hs).
  assert (Hnew : blocks (resized m b cs n) !! len (blocks m)
                 = Some (Block true true (copied cs 0 n)))
    by apply (resized_new_block m b cs n Hlt).
  assert (Hsrc : blocks (resized m b cs n) !! bs = Some (Block ks true ds))
    by (rewrite resized_other_block by (try lia; congruence); exact Hs).
  unfold from_arr.
  rewrite (bind_ok _ _ _ _ _ (resize_spec m b cs _ n Hb ltac:(lia) Hfit)).
  rewrite for_int_bind by lia.
  rewrite Nat2Z.id. simpl m_data.
  rewrite (bind_ok _ _ _ _ _
             (fill_from_array _ (len (blocks m)) true (copied cs 0 n) bs ks ds n
                ltac:(lia) Hnew Hsrc (copied_length cs 0 n) ltac:(lia))).
  reflexivity.
Qed.

(** [from_arr(arr, n)] on an array that has a buffer, from a different live
    block with at least [n > 0] slots, [n] within the range of the [int]
    loop counter: the array gets a new buffer of [n]
    slots holding the first [n] elements of [arr], its old buffer is
    released, and [arr] is only read.  The [resize] inside still copies
    from the old buffer first, so with [n] above the old length it loads
    past that buffer.  The overload for fixed-size arrays does the same. *)
Theorem from_arr_replaces_contents m a cs bs ks ds (n : nat) :
  holds m a cs -> m_data a <> Null ->
  blocks m !! bs = Some (Block ks true ds) -> ptr_block (m_data a) <> Some bs ->
  (0 < n <= len ds)%nat -> Z.of_nat n <= INT_MAX ->
  exists b a' m',
    m_data a = Ptr b 0 /\
    from_arr a (Ptr bs 0) (Z.of_nat n) m = Ok a' m' /\
    from_arr_fixed a (Ptr bs 0) (Z.of_nat n) m = Ok a' m' /\
    length a' = Z.of_nat n /\
    holds m' a' (take n ds) /\
    blocks m' !! bs = Some (Block ks true ds) /\
    blocks m' !! b = Some (Block true false cs) /\
    stray_reads m'
    = stray_reads m ++ ((fun j => (b, Z.of_nat j)) <$> seq (len cs) (n - len cs)).
Proof.
  intros Hh Hnn Hs Hne Hn Hmax.
  destruct (holds_buffer m a cs Hh Hnn) as (b & -> & Hb & Hlt).
  simpl in Hne.
  assert (Hbs : bs <> b) by congruence.
  assert (Hlts : (bs < len (blocks m))%nat) by (eapply lookup_lt_Some, Hs).
  set (bn := len (blocks m)).
  assert (Hnew : blocks (resized m b cs n) !! bn = Some (Block true true (copied cs 0 n)))
    by apply (resized_new_block m b cs n Hlt).
  assert (Hsrc : blocks (resized m b cs n) !! bs = Some (Block ks true ds))
    by (rewrite resized_other_block by (try lia; congruence); exact Hs).
  pose proof (from_arr_run m b cs (Z.of_nat (len cs)) bs ks ds n Hb Hs Hbs Hn Hmax)
    as Hrun. fold bn in Hrun.
  eexists b, _, _. split; [reflexivity |]. split; [exact Hrun |].
  split; [exact Hrun |]. split; [reflexivity |].
  split; [| split; [| split]].
  - split; simpl; [rewrite length_take; lia |].
    split; [reflexivity |]. apply list_lookup_insert_eq.
    rewrite length_insert, length_app. simpl. fold bn. lia.
  - rewrite lookup_set_block_ne by (unfold bn; lia). exact Hsrc.
  - rewrite lookup_set_block_ne by (unfold bn; lia).
    unfold resized. apply lookup_set_block_eq. simpl. rewrite length_app. lia.
  - simpl. rewrite strays_from_start. reflexivity.
Qed.

(** [from_arr] given the array's own buffer reads it after [resize] has
    released it. *)
Theorem from_arr_of_own_buffer m a cs (n : nat) :
  holds m a cs -> m_data a <> Null -> (0 < n)%nat ->
  Z.of_nat n * sizeof <= PTRDIFF_MAX ->
  from_arr a (m_data a) (Z.of_nat n) m = Fault DeadAccess.
Proof.
  intros Hh Hnn Hn Hmax.
  destruct (holds_buffer m a cs Hh Hnn) as (b & -> & Hb & Hlt).
  unfold from_arr. simpl m_data.
  rewrite (bind_ok _ _ _ _ _ (resize_spec m b cs _ n Hb Hn Hmax)).
  apply bind_fault. unfold for_int. apply bind_fault.
  destruct (Z.to_nat (Z.min (Z.of_nat n) (INT_MAX + 1))) as [| k] eqn:Hk;
    [unfold INT_MAX in Hk; lia |].
  simpl for_loop. apply bind_fault.
  unfold copy_slot. apply bind_fault.
  assert (Hd : blocks (resized m b cs n) !! b = Some (Block true false cs)).
  { unfold resized. apply lookup_set_block_eq. simpl. rewrite length_app. lia. }
  unfold load. cbn [ptr_add]. rewrite Hd. reflexivity.
Qed.

(** [from_arr] with length 0, like every [resize(0)], goes through [erase]:
    the array forgets its buffer without releasing it.  The block stays live
    with its elements, and the destructor of the array has nothing left to
    release. *)
Theorem from_arr_of_nothing_abandons_buffer m a cs arr :
  holds m a cs -> m_data a <> Null ->
  exists b,
    m_data a = Ptr b 0 /\
    from_arr a arr 0 m = Ok SmartArray_default m /\
    bind (from_arr a arr 0) SmartArray_destroy m = Ok tt m /\
    blocks m !! b = Some (Block true true cs).
Proof.
  intros Hh Hnn.
  destruct (holds_buffer m a cs Hh Hnn) as (b & -> & Hb & Hlt).
  exists b. split; [reflexivity |]. split; [reflexivity |].
  split; [reflexivity | exact Hb].
Qed.


(** ** [put] and [append] again *)

(** [put(v, i)] with [0 <= i < length] does not insert: it overwrites slot
    [i], every other element stays where it is, and the array still grows
    to [ceil(length * 1.125)] slots, the new ones indeterminate. *)
Theorem put_overwrites_without_shifting m a cs v i :
  holds m a cs -> length a <= INT_MAX -> 0 <= i < length a ->
  exists a' m',
    put a v i m = Ok a' m' /\
    length a' = grow_size (length a) /\
    holds m' a' (<[Z.to_nat i := Some v]> cs
                 ++ replicate (Z.to_nat (grow_size (length a) - length a)) None).
Proof.
  intros Hh Hmax Hi.
  destruct (holds_nonempty m a cs Hh ltac:(lia)) as (b & -> & Hb & Hlt).
  simpl in Hmax, Hi. simpl length.
  pose proof (grow_size_bounds (Z.of_nat (len cs)) ltac:(lia)) as Hg.
  pose proof (put_spec m b cs v i Hb ltac:(lia) ltac:(lia)) as Hput. simpl in Hput.
  destruct (Z.ltb_spec i 0) as [? | _]; [lia |].
  rewrite copied_beyond in Hput by lia.
  rewrite insert_app_l in Hput by lia.
  replace (Z.to_nat (grow_size (Z.of_nat (len cs))) - len cs)%nat
    with (Z.to_nat (grow_size (Z.of_nat (len cs)) - Z.of_nat (len cs))) in Hput by lia.
  eexists _, _. split; [exact Hput |]. split; [reflexivity |].
  split; simpl.
  - rewrite length_app, length_insert, length_replicate. lia.
  - split; [reflexivity |]. apply list_lookup_insert_eq.
    rewrite length_insert, length_app. simpl. lia.
Qed.

Lemma grow_size_step n :
  0 < n -> (n <= 8 -> grow_size n = n + 1) /\ (9 <= n -> n + 2 <= grow_size n).
Proof.
  intros H. unfold grow_size.
  pose proof (Z.div_mod (9 * n + 7) 8 ltac:(lia)).
  pose proof (Z.mod_pos_bound (9 * n + 7) 8 ltac:(lia)). lia.
Qed.

(** [append] on a non-empty array puts the value right after the old
    elements and pads the array up to [ceil(length * 1.125)] slots with
    indeterminate ones: none up to length 8, at least one from length 9 on,
    where the last element [a[-1]] after the call is not the value
    appended. *)
Theorem append_pads_with_indeterminate_slots m a cs v :
  holds m a cs -> 0 < length a -> grow_size (length a) <= INT_MAX ->
  let k := Z.to_nat (grow_size (length a) - length a - 1) in
  exists a' m',
    append a v m = Ok a' m' /\
    length a' = length a + 1 + Z.of_nat k /\
    holds m' a' (cs ++ Some v :: replicate k None) /\
    get a' (length a) m' = Ok (Some v) m' /\
    (length a <= 8 -> k = 0%nat /\ get a' (-1) m' = Ok (Some v) m') /\
    (9 <= length a -> (1 <= k)%nat /\ get a' (-1) m' = Ok None m').
Proof.
  intros Hh Hpos Hmax k.
  destruct (holds_nonempty m a cs Hh Hpos) as (b & -> & Hb & Hlt).
  simpl in Hpos, Hmax. simpl length in k. simpl length.
  set (n := Z.of_nat (len cs)) in *.
  pose proof (grow_size_bounds n Hpos) as Hg.
  pose proof (grow_size_step n Hpos) as [Hsmall Hbig].
  pose proof (put_spec m b cs v (-1) Hb ltac:(fold n; lia) ltac:(fold n; lia)) as Hput.
  simpl in Hput. fold n in Hput.
  rewrite copied_beyond in Hput by (unfold n in *; lia).
  assert (Hcells : <[Z.to_nat (n + 1 + -1) := Some v]>
                     (cs ++ replicate (Z.to_nat (grow_size n) - len cs) None)
                   = cs ++ Some v :: replicate k None).
  { rewrite insert_app_r_alt by (unfold n; lia).
    replace (Z.to_nat (n + 1 + -1) - len cs)%nat with 0%nat by (unfold n; lia).
    replace (Z.to_nat (grow_size n) - len cs)%nat with (S k) by (unfold k, n in *; lia).
    reflexivity. }
  rewrite Hcells in Hput.
  set (a' := MkSmartArray (Ptr (len (blocks m)) 0) (grow_size n)) in *.
  set (m' := set_block (len (blocks m))
               (Block true true (cs ++ Some v :: replicate k None))
               (resized m b cs (Z.to_nat (grow_size n)))) in *.
  assert (Hh' : holds m' a' (cs ++ Some v :: replicate k None)).
  { split; simpl.
    - rewrite length_app. simpl. rewrite length_replicate. unfold k, n in *. lia.
    - split; [reflexivity |]. apply list_lookup_insert_eq.
      rewrite length_insert, length_app. simpl. lia. }
  assert (Hb' : blocks m' !! len (blocks m)
                = Some (Block true true (cs ++ Some v :: replicate k None)))
    by apply Hh'.
  assert (Hlen' : len (cs ++ Some v :: replicate k None) = Z.to_nat (grow_size n)).
  { rewrite length_app. simpl. rewrite length_replicate. unfold k, n in *. lia. }
  assert (Hget : forall i j, - grow_size n <= i < grow_size n ->
             resolve_get (grow_size n) i = Z.of_nat j ->
             get a' i m' = Ok (peek (cs ++ Some v :: replicate k None) j) m').
  { intros i j Hi Hres. unfold get.
    rewrite (bind_ok _ _ _ _ _
               (subscript_in_range m' a' i ltac:(simpl; lia) ltac:(simpl; lia))).
    simpl. rewrite Hres, Z.add_0_l.
    apply (load_inside m' _ true _ j Hb').
    rewrite Hlen'. destruct (Z.ltb_spec i 0).
    - rewrite resolve_get_neg in Hres by lia. lia.
    - rewrite resolve_get_nonneg in Hres by lia. lia. }
  exists a', m'. split; [exact Hput |]. split; [unfold k; simpl; lia |].
  split; [exact Hh' |]. split; [| split].
  - rewrite (Hget n (len cs)) by (rewrite ?resolve_get_nonneg; unfold n in *; lia).
    unfold peek. rewrite lookup_app_r by lia. rewrite Nat.sub_diag. reflexivity.
  - intros Hle. assert (Hk : k = 0%nat) by (unfold k; lia).
    split; [exact Hk |].
    rewrite (Hget (-1) (len cs)) by (rewrite ?resolve_get_neg; unfold n in *; lia).
    unfold peek. rewrite lookup_app_r by lia. rewrite Nat.sub_diag. reflexivity.
  - intros Hge. assert (Hk : (1 <= k)%nat) by (unfold k; lia).
    split; [exact Hk |].
    rewrite (Hget (-1) (len cs + k)%nat)
      by (rewrite ?resolve_get_neg; unfold k, n in *; lia).
    unfold peek. rewrite lookup_app_r by lia.
    replace (len cs + k - len cs)%nat with (S (k - 1)) by lia. simpl.
    rewrite lookup_replicate_2 by lia. reflexivity.
Qed.

(** ** [operator+] outside the case of equal lengths *)

Lemma store_outside m b k cs (i : nat) v :
  blocks m !! b = Some (Block k true cs) -> (len cs <= i)%nat ->
  store (Ptr b (Z.of_nat i)) v m = Fault StoreOutOfBlock.
Proof.
  intros Hb Hi. unfold store. rewrite Hb. simpl.
  rewrite in_block_past by exact Hi. reflexivity.
Qed.

Lemma for_loop_fault_after body f (k1 k2 : nat) :
  forall i m m1,
  for_loop i k1 body m = Ok tt m1 ->
  body (i + k1)%nat m1 = Fault f ->
  for_loop i (k1 + S k2) body m = Fault f.
Proof.
  induction k1 as [| k1 IH]; intros i m m1 Hrun Hbody.
  - simpl in Hrun. unfold ret in Hrun. injection Hrun as <-.
    rewrite Nat.add_0_r in Hbody. simpl. apply bind_fault, Hbody.
  - simpl in Hrun. destruct (bind_ok_inv _ _ _ _ _ Hrun) as ([] & m0 & H0 & H1).
    simpl. rewrite (bind_ok _ _ _ _ _ H0).
    apply (IH (S i) m0 m1 H1). replace (S i + k1)%nat with (i + S k1)%nat by lia.
    exact Hbody.
Qed.

(** The copy of [operator+] with the longer operand first, on the blocks of
    the two buffers. *)
Lemma concat_store_past_end m ba bb cs ds :
  blocks m !! ba = Some (Block true true cs) ->
  blocks m !! bb = Some (Block true true ds) -> ba <> bb ->
  (0 < len ds < len cs)%nat -> Z.of_nat (len cs) <= INT_MAX ->
  concat (MkSmartArray (Ptr ba 0) (Z.of_nat (len cs)))
         (MkSmartArray (Ptr bb 0) (Z.of_nat (len ds))) m
  = Fault StoreOutOfBlock.
Proof.
  intros Hba Hbb Hab Hlen Hmax.
  assert (Hlta : (ba < len (blocks m))%nat) by (eapply lookup_lt_Some, Hba).
  assert (Hltb : (bb < len (blocks m))%nat) by (eapply lookup_lt_Some, Hbb).
  unfold concat, operator_plus. simpl length. unfold size_add.
  rewrite to_size_t_small by (ints; lia). rewrite <- Nat2Z.inj_add.
  rewrite (bind_ok _ _ _ _ _
             (resize_spec m ba cs _ (len cs + len ds) Hba ltac:(lia)
                ltac:(apply fits_int; ints; lia))).
  apply bind_fault. simpl m_data. simpl ptr_add. rewrite Z.add_0_l.
  set (m1 := resized m ba cs (len cs + len ds)).
  set (bn := len (blocks m)).
  assert (Hsrc : blocks m1 !! bb = Some (Block true true ds))
    by (unfold m1; rewrite resized_other_block by assumption; exact Hbb).
  assert (Hdst : blocks m1 !! bn = Some (Block true true (copied cs 0 (len cs + len ds))))
    by apply (resized_new_block m ba cs (len cs + len ds) Hlta).
  unfold std_copy. rewrite Nat2Z.id.
  replace (len cs) with (len ds + S (len cs - len ds - 1))%nat at 1 by lia.
  eapply for_loop_fault_after.
  - apply (copy_loop_spec bb true ds bn true (len cs) (len ds) 0 _ m1
             ltac:(unfold bn; lia) Hsrc Hdst).
    rewrite copied_length. lia.
  - rewrite strays_inside by lia. rewrite note_reads_nil. simpl plus.
    set (m2 := set_block bn _ m1).
    assert (Hsrc2 : blocks m2 !! bb = Some (Block true true ds))
      by (unfold m2; rewrite lookup_set_block_ne by (unfold bn; lia); exact Hsrc).
    unfold copy_slot. simpl ptr_add. rewrite Z.add_0_l.
    rewrite (bind_ok _ _ _ _ _ (load_past m2 bb true ds (len ds) Hsrc2 ltac:(lia))).
    rewrite <- Nat2Z.inj_add.
    eapply store_outside.
    + simpl. apply list_lookup_insert_eq. eapply lookup_lt_Some, Hdst.
    + rewrite splice_length by (rewrite !copied_length; lia).
      rewrite copied_length. lia.
Qed.

(** With a first operand longer than a non-empty second one, [operator+]
    copies [a.length] elements from [b]: after the [b.length] that fit, the
    next one is loaded from past the end of [b] and stored past the end of
    the new buffer of [a]. *)
Theorem concat_longer_first_operand_overruns m a b cs ds :
  holds m a cs -> holds m b ds -> m_data a <> m_data b ->
  0 < length b < length a -> length a <= INT_MAX ->
  concat a b m = Fault StoreOutOfBlock.
Proof.
  intros Ha Hb Hne Hlen Hmax.
  destruct (holds_nonempty m a cs Ha ltac:(lia)) as (ba & -> & Hba & Hlta).
  destruct (holds_nonempty m b ds Hb ltac:(lia)) as (bb & -> & Hbb & Hltb).
  simpl in Hlen, Hmax.
  assert (Hab : ba <> bb) by (intros ->; apply Hne; reflexivity).
  apply concat_store_past_end; [assumption .. | lia | lia].
Qed.

(** A default-constructed array is no unit for [operator+]: with a
    non-empty array on either side the copy goes through the null pointer;
    only two default-constructed arrays concatenate, to the empty state. *)
Theorem concat_with_default_array m a cs :
  holds m a cs -> 0 < length a <= INT_MAX ->
  concat a SmartArray_default m = Fault NullAccess /\
  concat SmartArray_default a m = Fault NullAccess /\
  concat SmartArray_default SmartArray_default m = Ok SmartArray_default m.
Proof.
  intros Hh Hlen.
  destruct (holds_nonempty m a cs Hh ltac:(lia)) as (b & -> & Hb & Hlt).
  simpl in Hlen. split; [| split; [| reflexivity]].
  - unfold concat, operator_plus. simpl length. unfold size_add. rewrite Z.add_0_r.
    rewrite to_size_t_small by (ints; lia).
    rewrite (bind_ok _ _ _ _ _
               (resize_spec m b cs _ (len cs) Hb ltac:(lia)
                  ltac:(apply fits_int; ints; lia))).
    apply bind_fault. unfold std_copy. rewrite Nat2Z.id.
    destruct (len cs) as [| k] eqn:E; [lia |].
    simpl. apply bind_fault. reflexivity.
  - unfold concat, operator_plus. apply bind_fault. simpl length. unfold size_add.
    rewrite Z.add_0_l. rewrite to_size_t_small by (ints; lia).
    apply resize_from_null_faults; [lia | apply fits_int; ints; lia].
Qed.

(** [a + a]: the operand is the array itself, so [other.m_data] is read
    after [resize] has replaced the buffer, and the copy takes the first
    [length] slots of the new buffer to its second half.  The array ends up
    holding its elements twice; the [resize] inside has loaded [length]
    slots past the end of the old buffer on the way. *)
Theorem plus_itself_doubles m a cs :
  holds m a cs -> 0 < length a <= INT_MAX ->
  exists b a' m',
    m_data a = Ptr b 0 /\
    operator_plus a Itself m = Ok a' m' /\
    length a' = 2 * length a /\
    holds m' a' (cs ++ cs) /\
    blocks m' !! b = Some (Block true false cs) /\
    stray_reads m'
    = stray_reads m ++ ((fun j => (b, Z.of_nat j)) <$> seq (len cs) (len cs)).
Proof.
  intros Hh Hlen.
  destruct (holds_nonempty m a cs Hh ltac:(lia)) as (b & -> & Hb & Hlt).
  simpl in Hlen.
  set (n := len cs) in *.
  set (bn := len (blocks m)).
  set (m1 := resized m b cs (n + n)).
  assert (Hres : resize (MkSmartArray (Ptr b 0) (Z.of_nat n)) (Z.of_nat (n + n)) m
                 = Ok (MkSmartArray (Ptr bn 0) (Z.of_nat (n + n))) m1)
    by (apply (resize_spec m b cs _ (n + n) Hb); [lia | apply fits_int; ints; lia]).
  assert (Hnew : blocks m1 !! bn = Some (Block true true (cs ++ replicate n None))).
  { unfold m1, bn. rewrite (resized_new_block m b cs (n + n) Hlt).
    rewrite copied_beyond by (fold n; lia).
    fold n. replace (n + n - n)%nat with n by lia. reflexivity. }
  assert (Hlen1 : (bn < len (blocks m1))%nat) by (eapply lookup_lt_Some, Hnew).
  assert (Hcopy : std_copy (Ptr bn 0) (Z.of_nat n) (ptr_add (Ptr bn 0) (Z.of_nat n)) m1
                  = Ok tt (set_block bn (Block true true (cs ++ cs)) m1)).
  { unfold std_copy. rewrite Nat2Z.id. simpl ptr_add. rewrite Z.add_0_l.
    rewrite (copy_within_block bn true n n 0 _ m1 Hnew ltac:(lia))
      by (rewrite length_app, length_replicate; fold n; lia).
    rewrite Nat.add_0_r.
    rewrite copied_prefix by (rewrite length_app; fold n; lia).
    assert (take n (cs ++ replicate n None) = cs) as -> by apply take_app_length.
    assert (splice (cs ++ replicate n None) n cs = cs ++ cs) as ->
      by (apply splice_tail; rewrite length_replicate; reflexivity).
    reflexivity. }
  exists b, (MkSmartArray (Ptr bn 0) (Z.of_nat (n + n))),
    (set_block bn (Block true true (cs ++ cs)) m1).
  split; [reflexivity |]. split; [| split; [| split; [| split]]].
  - unfold operator_plus. simpl length. unfold size_add.
    rewrite to_size_t_small by (ints; lia). rewrite <- Nat2Z.inj_add.
    rewrite (bind_ok _ _ _ _ _ Hres). simpl m_data.
    rewrite (bind_ok _ _ _ _ _ Hcopy). reflexivity.
  - simpl. lia.
  - split; simpl; [rewrite length_app; fold n; lia |].
    split; [reflexivity |]. apply list_lookup_insert_eq, Hlen1.
  - rewrite lookup_set_block_ne by (unfold bn; lia).
    unfold m1, resized. apply lookup_set_block_eq. simpl. rewrite length_app. lia.
  - simpl. rewrite strays_from_start. fold n.
    replace (n + n - n)%nat with n by lia. reflexivity.
Qed.

(** ** The reversed view again *)

(** [reverse()] reverses the elements in place, in the same buffer, with
    its scratch buffer released, and a second call puts them back. *)
Theorem reverse_twice_restores m a cs :
  holds m a cs -> m_data a <> Null -> length a <= INT_MAX ->
  exists m1 m2,
    reverse T0 a m = Ok tt m1 /\ holds m1 a (list.reverse cs) /\
    reverse T0 a m1 = Ok tt m2 /\ holds m2 a cs /\
    stray_reads m2 = stray_reads m /\
    blocks m2 = blocks m ++ [Block true false (list.reverse cs); Block true false cs].
Proof.
  intros Hh Hnn Hmax.
  destruct (holds_buffer m a cs Hh Hnn) as (b & -> & Hb & Hlt).
  simpl in Hmax.
  set (m1 := push_block (Block true false (list.reverse cs))
               (set_block b (Block true true (list.reverse cs)) m)).
  assert (Hb1 : blocks m1 !! b = Some (Block true true (list.reverse cs))).
  { unfold m1. rewrite lookup_push_block_old by (simpl; rewrite length_insert; exact Hlt).
    apply lookup_set_block_eq, Hlt. }
  pose proof (reverse_spec m1 b (list.reverse cs) Hb1) as H2.
  rewrite length_reverse, reverse_involutive in H2.
  exists m1. eexists. split; [apply (reverse_spec m b cs Hb Hmax) |].
  split; [| split; [apply (H2 Hmax) | split; [| split]]].
  - split; simpl; [rewrite length_reverse; reflexivity |].
    split; [reflexivity | exact Hb1].
  - split; simpl; [reflexivity | split; [reflexivity |]].
    rewrite lookup_app_l by (rewrite length_insert, length_app, length_insert; lia).
    apply list_lookup_insert_eq. rewrite length_app, length_insert. lia.
  - reflexivity.
  - simpl. rewrite insert_app_l by (rewrite length_insert; lia).
    rewrite list_insert_insert_eq, list_insert_id by exact Hb.
    rewrite <- app_assoc. reflexivity.
Qed.

(** A view that is constructed and then destroyed leaves nothing behind:
    the three blocks the constructor allocated (the by-value parameter, the
    view's [iter], the scratch buffer) are all released, the blocks that
    were there are as they were, and the source still holds its elements. *)
Theorem view_lifecycle_releases_all m a cs :
  holds m a cs -> length a <= INT_MAX ->
  exists m',
    bind (SmartArrayReverse_ctor T0 a) SmartArrayReverse_destroy m = Ok tt m' /\
    blocks m' = blocks m ++ [Block true false cs;
                             Block true false (list.reverse cs);
                             Block true false (list.reverse cs)] /\
    stray_reads m' = stray_reads m /\
    holds m' a cs.
Proof.
  intros Hh Hmax.
  assert (Hv : blocks (viewed m cs) !! S (len (blocks m))
               = Some (Block true true (list.reverse cs))).
  { simpl. rewrite lookup_app_r by lia.
    replace (S (len (blocks m)) - len (blocks m))%nat with 1%nat by lia.
    reflexivity. }
  eexists. split; [| split; [| split]].
  - rewrite (bind_ok _ _ _ _ _ (SmartArrayReverse_ctor_spec m a cs Hh Hmax)).
    unfold SmartArrayReverse_destroy, SmartArray_destroy. simpl iter. simpl base.
    cbn [m_data].
    rewrite (bind_ok _ _ _ _ _ (delete_array_ok _ _ _ Hv)). reflexivity.
  - simpl. rewrite insert_app_r_alt by lia.
    replace (S (len (blocks m)) - len (blocks m))%nat with 1%nat by lia.
    reflexivity.
  - reflexivity.
  - destruct Hh as [Hl Hp]. split; [exact Hl |].
    destruct (m_data a) as [| b off | w]; [exact Hp | | exact Hp].
    destruct Hp as [-> Hb]. split; [reflexivity |].
    assert (Hlt : (b < len (blocks m))%nat) by (eapply lookup_lt_Some, Hb).
    simpl. rewrite list_lookup_insert_ne by lia.
    rewrite lookup_app_l by exact Hlt. exact Hb.
Qed.

(** What a view inherits from [SmartArray] works on its base subobject,
    which is default-constructed and never filled: [size()] is 0 whatever
    the view holds, and [operator[]] gives, for every index, a reference
    through the null pointer (moved by the index) instead of an element or a
    bounds error. *)
Theorem view_inherited_members_see_an_empty_array m a cs view m' i :
  holds m a cs -> length a <= INT_MAX ->
  SmartArrayReverse_ctor T0 a m = Ok view m' ->
  length (iter view) = Z.of_nat (len cs) /\
  size (base view) = 0 /\
  subscript (base view) i m' = Ok (ptr_add Null (resolve_get 0 i)) m' /\
  get (base view) i m' = Fault NullAccess.
Proof.
  intros Hh Hmax Hctor.
  rewrite (SmartArrayReverse_ctor_spec m a cs Hh Hmax) in Hctor.
  injection Hctor as <- <-. simpl iter. simpl base.
  assert (Hs : subscript SmartArray_default i (viewed m cs)
               = Ok (ptr_add Null (resolve_get 0 i)) (viewed m cs)).
  { unfold subscript.
    rewrite (bind_ok _ _ _ _ _
               (check_pass _ SmartArray_default i (out_of_bounds_empty i))).
    reflexivity. }
  split; [apply Hh |]. split; [reflexivity |]. split; [exact Hs |].
  unfold get. rewrite (bind_ok _ _ _ _ _ Hs).
  simpl. destruct (resolve_get 0 i =? 0); reflexivity.
Qed.

(** ** Output *)

Lemma stream_items_spec m b k cs :
  blocks m !! b = Some (Block k true cs) ->
  stream_items (MkSmartArray (Ptr b 0) (Z.of_nat (len cs))) m
  = Ok (Text "{" :: flat_map (fun v => [Value v; Text ", "]) cs ++ [Text "}"]) m.
Proof.
  intros Hb. unfold stream_items, begin_. simpl m_data. simpl length.
  rewrite Nat2Z.id. change (Ptr b 0) with (Ptr b (Z.of_nat 0)).
  rewrite (bind_ok _ _ _ _ _ (iterate_block m b k cs (len cs) Hb 0 ltac:(lia))).
  rewrite drop_0, firstn_all. reflexivity.
Qed.

Lemma stream_out_run m a cs :
  holds m a cs -> length a * sizeof <= PTRDIFF_MAX ->
  stream_out a m
  = Ok (Text "{" :: flat_map (fun v => [Value v; Text ", "]) cs ++ [Text "}"])
       (push_block (Block true false cs) m).
Proof.
  intros Hh Hmax.
  assert (Hl : length a = Z.of_nat (len cs)) by apply Hh.
  unfold stream_out.
  rewrite (bind_ok _ _ _ _ _ (SmartArray_copy_spec m a cs Hh Hmax)).
  set (m1 := push_block (Block true true cs) m).
  assert (Hn : blocks m1 !! len (blocks m) = Some (Block true true cs))
    by apply lookup_push_block_new.
  rewrite Hl.
  rewrite (bind_ok _ _ _ _ _ (stream_items_spec m1 _ true cs Hn)).
  unfold SmartArray_destroy. simpl m_data.
  rewrite (bind_ok _ _ _ _ _ (delete_array_ok m1 _ cs Hn)).
  unfold m1. rewrite set_block_push. reflexivity.
Qed.

Lemma holds_push_block m blk a cs : holds m a cs -> holds (push_block blk m) a cs.
Proof.
  intros [Hl Hp]. split; [exact Hl |].
  destruct (m_data a) as [| b off | w]; [exact Hp | | exact Hp].
  destruct Hp as [-> Hb]. split; [reflexivity |].
  rewrite lookup_push_block_old by (eapply lookup_lt_Some, Hb). exact Hb.
Qed.

(** [out << a] sends an opening brace, every element followed by a comma
    and a space, the last one too, and a closing brace; [{}] for an empty
    array.  The array is not touched: the call works on a copy, which it
    releases. *)
Theorem stream_out_renders_every_element m a cs :
  holds m a cs -> length a * sizeof <= PTRDIFF_MAX ->
  stream_out a m
  = Ok (Text "{" :: flat_map (fun v => [Value v; Text ", "]) cs ++ [Text "}"])
       (push_block (Block true false cs) m) /\
  holds (push_block (Block true false cs) m) a cs.
Proof.
  intros Hh Hmax. split.
  - apply (stream_out_run m a cs Hh Hmax).
  - apply holds_push_block, Hh.
Qed.

(** A scalar [delete] of any address in a [new[]] block has no defined
    outcome, so [pop] stops there once the bounds check has passed. *)
Lemma pop_of_array_block_faults m b cs l i :
  blocks m !! b = Some (Block true true cs) ->
  out_of_bounds l i = false ->
  pop (MkSmartArray (Ptr b 0) l) i m = Fault BadDelete.
Proof.
  intros Hb Hin. unfold pop.
  rewrite (bind_ok _ _ _ _ _ (check_pass m (MkSmartArray (Ptr b 0) l) i Hin)).
  apply bind_fault. unfold delete_scalar, release. cbn [ptr_add m_data].
  rewrite Hb. simpl. rewrite andb_false_r. reflexivity.
Qed.

(** [to_arr] on a default-constructed array is not rejected either: a
    positive count copies from the null pointer, and a negative one, the
    default [-1] included, becomes the count [0 + n] and asks [new] for a
    negative number of slots. *)
Theorem to_arr_on_default_array m n :
  is_int n ->
  (0 < n -> to_arr SmartArray_default n m = Fault NullAccess) /\
  (n < 0 -> to_arr SmartArray_default n m = Fault AllocFailure).
Proof.
  intros Hn. unfold is_int in Hn.
  assert (Hc : checkIndexOrSize SmartArray_default n m = Ok tt m)
    by apply (check_pass m SmartArray_default n (out_of_bounds_empty n)).
  split; intros Hs; unfold to_arr; rewrite (bind_ok _ _ _ _ _ Hc);
    (destruct (Z.eqb_spec n 0) as [E | _]; [lia |]); simpl length; simpl m_data.
  - rewrite resolve_get_nonneg by lia.
    rewrite to_size_t_small by (ints; lia).
    rewrite (bind_ok _ _ _ _ _
               (new_array_ok m n None ltac:(lia) ltac:(apply fits_int; ints; lia))).
    apply bind_fault. unfold std_copy.
    destruct (Z.to_nat n) as [| j] eqn:E; [lia |].
    simpl. apply bind_fault. reflexivity.
  - apply bind_fault. unfold resolve_get.
    destruct (Z.ltb_spec n 0) as [_ | ?]; [| lia].
    unfold size_add. rewrite Z.add_0_l.
    rewrite (to_size_t_neg n) by (ints; lia).
    rewrite (to_size_t_small (n + SIZE_MOD)) by (ints; lia).
    replace (to_int (n + SIZE_MOD)) with n.
    2: { unfold to_int. ints.
         replace (n + 18446744073709551616 + 2 ^ 31)
           with ((n + 2 ^ 31) + 4294967296 * 2 ^ 32) by lia.
         rewrite Z_mod_plus_full. rewrite Z.mod_small; lia. }
    rewrite (to_size_t_neg n) by (ints; lia).
    apply new_array_too_large, too_large. unfold PTRDIFF_MAX. ints. lia.
Qed.

(** On a non-empty array the bounds check lets an index through exactly
    when it lies in [-length, length): written with [&&], the test works
    as the intended [||] because both comparisons are unsigned. *)
Theorem check_accepts_exactly_valid_indices m a cs i :
  holds m a cs -> 0 < length a <= INT_MAX -> is_int i ->
  (checkIndexOrSize a i m = Ok tt m <-> - length a <= i < length a) /\
  (checkIndexOrSize a i m = OutOfBounds (freed m a)
   <-> (length a <= i \/ i < - length a)).
Proof.
  intros Hh Hlen Hi.
  destruct (holds_nonempty m a cs Hh ltac:(lia)) as (b & -> & Hb & Hlt).
  simpl in Hlen. simpl length.
  rewrite (freed_buffer m b cs _ Hb).
  pose proof (out_of_bounds_nonempty (Z.of_nat (len cs)) i Hlen Hi) as Hoob.
  destruct (out_of_bounds (Z.of_nat (len cs)) i) eqn:E.
  - assert (Hout : Z.of_nat (len cs) <= i \/ i < - Z.of_nat (len cs))
      by (apply Hoob; reflexivity).
    rewrite (check_fail m b cs _ i Hb E).
    split; split; intros H; try discriminate; try lia; try reflexivity.
  - assert (Hin : ~ (Z.of_nat (len cs) <= i \/ i < - Z.of_nat (len cs)))
      by (intros H; apply Hoob in H; discriminate).
    rewrite (check_pass m (MkSmartArray (Ptr b 0) (Z.of_nat (len cs))) i E).
    split; split; intros H; try discriminate; try lia; try reflexivity.
Qed.

(** ** The view and the mutations of its source *)

Lemma viewed_source m a cs : holds m a cs -> holds (viewed m cs) a cs.
Proof.
  intros [Hl Hp]. split; [exact Hl |].
  destruct (m_data a) as [| b off | w]; [exact Hp | | exact Hp].
  destruct Hp as [-> Hb]. split; [reflexivity |].
  simpl. rewrite lookup_app_l by (eapply lookup_lt_Some, Hb). exact Hb.
Qed.

Lemma viewed_iter m cs :
  blocks (viewed m cs) !! S (len (blocks m)) = Some (Block true true (list.reverse cs)).
Proof.
  simpl. rewrite lookup_app_r by lia.
  replace (S (len (blocks m)) - len (blocks m))%nat with 1%nat by lia.
  reflexivity.
Qed.

(** C10 (the code at the failing inputs).  The constructor of the view
    does take a copy: when it has returned, [iter] is a live block of its
    own holding the reversed elements, and the source is as it was.  But two
    of the mutations of the source that the claim lists have no defined
    outcome when they are then run: [pop], for every index in range, stops
    at the [delete] of an address that no [new] returned (the defect of C8),
    and [operator+] with a shorter non-empty second operand stores past the
    end of the source's new buffer (the defect of C4).  After such a call
    nothing is guaranteed of the view. *)
Theorem source_mutations_after_view_undefined m a cs view m1 i b ds :
  holds m a cs -> 0 < length a <= INT_MAX ->
  SmartArrayReverse_ctor T0 a m = Ok view m1 ->
  - length a <= i < length a ->
  holds m1 b ds -> m_data a <> m_data b -> 0 < length b < length a ->
  holds m1 (iter view) (list.reverse cs) /\
  holds m1 a cs /\
  pop a i m1 = Fault BadDelete /\
  concat a b m1 = Fault StoreOutOfBlock.
Proof.
  intros Hh Hlen Hctor Hi Hb Hne Hlb.
  rewrite (SmartArrayReverse_ctor_spec m a cs Hh ltac:(lia)) in Hctor.
  injection Hctor as <- <-. simpl iter.
  pose proof (viewed_source m a cs Hh) as Hsrc.
  destruct (holds_nonempty _ a cs Hsrc ltac:(lia)) as (ba & -> & Hba & _).
  destruct (holds_nonempty _ b ds Hb ltac:(lia)) as (bb & -> & Hbb & _).
  simpl in Hlen, Hi, Hlb.
  split; [| split; [exact Hsrc | split]].
  - split; simpl; [rewrite length_reverse; reflexivity |].
    split; [reflexivity | apply viewed_iter].
  - apply (pop_of_array_block_faults _ ba cs); [exact Hba |].
    apply in_range_passes; lia.
  - apply concat_store_past_end; [assumption .. | | lia | lia].
    intros ->. apply Hne. reflexivity.
Qed.

End Proofs.

(** ** The sample states *)

Ltac holds_sample := split; [reflexivity | first [reflexivity | split; reflexivity]].
Ltac int_sample := unfold is_int, INT_MAX, INT_MIN; simpl; lia.
Ltac size_sample := unfold PTRDIFF_MAX, INT_MAX, sizeof, int_size; simpl; lia.

Lemma holds_123 : holds mem_123 arr_123 (cells_of [1; 2; 3]).
Proof. holds_sample. Qed.

Lemma run_123_returns : mutates arr_123 mem_view_123 arr_after_run mem_after_run.
Proof.
  apply (mutates_step (Concat (Another (iter view_123))) _ _
           (MkSmartArray (Ptr 4 0) 6)
           (Mem [Block true false (cells_of [1; 2; 3]);
                 Block true false (cells_of [1; 2; 3]);
                 Block true true (cells_of [3; 2; 1]);
                 Block true false (cells_of [3; 2; 1]);
                 Block true true (cells_of [1; 2; 3; 3; 2; 1])]
                [(0%nat, 3); (0%nat, 4); (0%nat, 5)])); [reflexivity |].
  apply (mutates_step (Put 9 (-1)) _ _ arr_after_run mem_after_run); [reflexivity |].
  apply mutates_done.
Qed.

(** The first [append] of a program: a default-constructed array, nothing
    allocated yet. *)
Lemma append_to_default_array :
  append SmartArray_default 5 mem_empty = Fault NullAccess.
Proof. reflexivity. Qed.

(** The example program, from any memory in which the braced list
    [{1, 2, 3}] is a live block: it builds the array, sends [{1, 2, 3, }] to
    the stream, and then stops in [a.pop()], at the [delete] of an address
    inside the array's buffer; nothing after that statement is reached. *)
Theorem example_program_stops_at_pop (m : @mem Z) (bl : nat) (k : bool) :
  blocks m !! bl = Some (Block k true (cells_of [1; 2; 3])) ->
  (exists a m3,
     main_before_pop (Ptr bl 0) m
     = Ok (a, [Text "{"; Value (Some 1); Text ", "; Value (Some 2); Text ", ";
               Value (Some 3); Text ", "; Text "}"]) m3 /\
     holds m3 a (cells_of [1; 2; 3])) /\
  main (Ptr bl 0) m = Fault BadDelete.
Proof.
  intros Hlit.
  assert (Hltl : (bl < len (blocks m))%nat) by (eapply lookup_lt_Some, Hlit).
  set (zeros := replicate 3 (Some 0) : list (option Z)).
  set (m1 := push_block (Block true true zeros) m).
  assert (H1 : SmartArray_sized 0 3 m = Ok (MkSmartArray (Ptr (len (blocks m)) 0) 3) m1).
  { apply (SmartArray_sized_spec 0 m 3); [lia | size_sample]. }
  assert (Hz : blocks m1 !! len (blocks m) = Some (Block true true zeros))
    by apply lookup_push_block_new.
  assert (Hl1 : blocks m1 !! bl = Some (Block k true (cells_of [1; 2; 3]))).
  { unfold m1. rewrite lookup_push_block_old by exact Hltl. exact Hlit. }
  set (a1 := MkSmartArray (Ptr (len (blocks m1)) 0) 3).
  set (m2 := set_block (len (blocks m1)) (Block true true (cells_of [1; 2; 3]))
               (resized m1 (len (blocks m)) zeros 3)).
  assert (H2 : from_arr_fixed (MkSmartArray (Ptr (len (blocks m)) 0) 3) (Ptr bl 0) 3 m1
               = Ok a1 m2).
  { apply (from_arr_run m1 (len (blocks m)) zeros 3 bl k (cells_of [1; 2; 3]) 3 Hz Hl1).
    - lia.
    - simpl. lia.
    - size_sample. }
  assert (Hb2 : blocks m2 !! len (blocks m1) = Some (Block true true (cells_of [1; 2; 3]))).
  { unfold m2. apply lookup_set_block_eq.
    rewrite resized_blocks by (unfold m1; simpl; rewrite length_app; simpl; lia).
    rewrite length_app, length_insert. simpl. lia. }
  assert (Hh2 : holds m2 a1 (cells_of [1; 2; 3])).
  { split; [reflexivity | split; [reflexivity | exact Hb2]]. }
  assert (Hsz : length a1 * sizeof <= PTRDIFF_MAX) by (unfold a1; size_sample).
  pose proof (stream_out_run m2 a1 _ Hh2 Hsz) as H3.
  set (m3 := push_block (Block true false (cells_of [1; 2; 3])) m2) in *.
  assert (Hh3 : holds m3 a1 (cells_of [1; 2; 3])) by apply holds_push_block, Hh2.
  split.
  - exists a1, m3. split; [| exact Hh3].
    unfold main_before_pop.
    rewrite (bind_ok _ _ _ _ _ H1), (bind_ok _ _ _ _ _ H2), (bind_ok _ _ _ _ _ H3).
    reflexivity.
  - unfold main.
    rewrite (bind_ok _ _ _ _ _ H1), (bind_ok _ _ _ _ _ H2), (bind_ok _ _ _ _ _ H3).
    apply bind_fault.
    apply (pop_of_array_block_faults m3 (len (blocks m1)) (cells_of [1; 2; 3]) 3 (-1)).
    + apply Hh3.
    + reflexivity.
Qed.

(** C1, at [{1, 2, 3}] with index 3. *)
Lemma out_of_range_access_aborts_witness :
  (subscript arr_123 3 mem_123 = OutOfBounds (freed mem_123 arr_123) /\
   get arr_123 3 mem_123 = OutOfBounds (freed mem_123 arr_123) /\
   set arr_123 3 9 mem_123 = OutOfBounds (freed mem_123 arr_123) /\
   put arr_123 9 3 mem_123 = OutOfBounds (freed mem_123 arr_123) /\
   pop arr_123 3 mem_123 = OutOfBounds (freed mem_123 arr_123) /\
   to_arr arr_123 3 mem_123 = OutOfBounds (freed mem_123 arr_123)) /\
  elements mem_123 arr_123 = Some (cells_of [1; 2; 3]) /\
  elements (freed mem_123 arr_123) arr_123 = None /\
  stray_reads (freed mem_123 arr_123) = stray_reads mem_123 /\
  (forall b', ptr_block (m_data arr_123) <> Some b' ->
              blocks (freed mem_123 arr_123) !! b' = blocks mem_123 !! b').
Proof.
  apply (out_of_range_access_aborts mem_123 arr_123 (cells_of [1; 2; 3]) 3 9).
  - holds_sample.
  - int_sample.
  - int_sample.
  - left. simpl. lia.
Defined.

(** C1 as stated fails at [{1, 2, 3}] with index 3: the access gives up,
    but the slots of the array are not what they were. *)
Lemma out_of_range_access_changes_contents :
  ~ fails_unchanged (subscript arr_123 3) mem_123 arr_123.
Proof.
  intros (m' & H & E). vm_compute in H. injection H as <-.
  vm_compute in E. discriminate E.
Qed.

(** C3, at [{1, 2, 3}]. *)
Lemma to_arr_full_length_rejected_witness :
  to_arr arr_123 (length arr_123) mem_123 = OutOfBounds (freed mem_123 arr_123) /\
  elements (freed mem_123 arr_123) arr_123 = None.
Proof.
  apply (to_arr_full_length_rejected mem_123 arr_123 (cells_of [1; 2; 3])).
  - holds_sample.
  - int_sample.
Defined.

(** C4, at [a = {1}], [b = {10, 20}]: [a] becomes [{1, 10, ?}]. *)
Lemma concat_copies_as_many_as_first_operand_witness :
  exists a' m',
    concat arr_1 arr_10_20 mem_1_2 = Ok a' m' /\
    length a' = length arr_1 + length arr_10_20 /\
    holds m' a' (cells_of [1] ++ take 1 (cells_of [10; 20]) ++ replicate (2 - 1) None) /\
    holds m' arr_10_20 (cells_of [10; 20]).
Proof.
  apply (concat_copies_as_many_as_first_operand mem_1_2 arr_1 arr_10_20
           (cells_of [1]) (cells_of [10; 20])).
  - holds_sample.
  - holds_sample.
  - discriminate.
  - simpl. lia.
  - int_sample.
Defined.

(** The example of the source comment, two arrays of the same length. *)
Lemma concat_example_of_the_source :
  match concat arr_123 arr_10_20_30 mem_3_3 with
  | Ok a' m' =>
    elements m' a' = Some (cells_of [1; 2; 3; 10; 20; 30]) /\
    elements m' arr_10_20_30 = Some (cells_of [10; 20; 30])
  | _ => False
  end.
Proof. vm_compute. split; reflexivity. Qed.

(** With the first operand the longer one, the copy runs past the end of
    both buffers. *)
Lemma concat_longer_first_operand :
  concat arr_1_2 arr_10 mem_2_1 = Fault StoreOutOfBlock.
Proof. reflexivity. Qed.

(** C5, at [{1, 2, 3}] grown to 4 slots, as [put] does. *)
Lemma resize_reads_past_old_buffer_witness :
  exists b a' m',
    m_data arr_123 = Ptr b 0 /\
    resize arr_123 (Z.of_nat 4) mem_123 = Ok a' m' /\
    length a' = Z.of_nat 4 /\
    holds m' a' (cells_of [1; 2; 3] ++ replicate (4 - 3) None) /\
    stray_reads m'
    = stray_reads mem_123 ++ ((fun j => (b, Z.of_nat j)) <$> seq 3 (4 - 3)).
Proof.
  apply (resize_reads_past_old_buffer mem_123 arr_123 (cells_of [1; 2; 3]) 4).
  - holds_sample.
  - discriminate.
  - simpl. lia.
  - size_sample.
Defined.

(** C6, at [{1, 2, 3}] with [put(9, -1)]. *)
Lemma put_negative_index_slot_witness :
  exists a' m' cs',
    put arr_123 9 (-1) mem_123 = Ok a' m' /\
    length a' = grow_size (length arr_123) /\
    length arr_123 + 1 + -1 < grow_size (length arr_123) /\
    cs' = <[Z.to_nat (length arr_123 + 1 + -1) := Some 9]>
            (cells_of [1; 2; 3]
             ++ replicate (Z.to_nat (grow_size (length arr_123) - length arr_123)) None) /\
    holds m' a' cs' /\
    cs' !! Z.to_nat (length arr_123 + 1 + -1) = Some (Some 9) /\
    cs' !! Z.to_nat (length arr_123 + -1)
    = cells_of [1; 2; 3] !! Z.to_nat (length arr_123 + -1).
Proof.
  apply (put_negative_index_slot mem_123 arr_123 (cells_of [1; 2; 3]) 9 (-1)).
  - holds_sample.
  - int_sample.
  - simpl. lia.
Defined.

(** C6 as stated fails at [{1, 2, 3}] with [put(9, -1)]: the slot that
    [operator[]] means by [-1] is slot 2, and 9 does not arrive there. *)
Lemma put_minus_one_misses_last_slot :
  ~ put_lands_in mem_123 arr_123 9 (-1) (length arr_123 + -1).
Proof.
  intros (a' & m' & cs' & H & E & L).
  vm_compute in H. injection H as <- <-.
  vm_compute in E. injection E as <-.
  vm_compute in L. discriminate L.
Qed.

(** C7, at [{1, 2, 3}]: the view iterates as 3, 2, 1. *)
Lemma reversed_view_of_array_witness :
  exists view m',
    SmartArrayReverse_ctor 0 arr_123 mem_123 = Ok view m' /\
    length (iter view) = length arr_123 /\
    holds m' (iter view) (list.reverse (cells_of [1; 2; 3])) /\
    (forall i, (i < 3)%nat ->
               list.reverse (cells_of [1; 2; 3]) !! i
               = cells_of [1; 2; 3] !! (3 - 1 - i)%nat) /\
    iterate (rbegin_ view) 3 m' = Ok (list.reverse (cells_of [1; 2; 3])) m' /\
    holds m' arr_123 (cells_of [1; 2; 3]) /\
    stray_reads m' = stray_reads mem_123.
Proof.
  apply (reversed_view_of_array 0 mem_123 arr_123 (cells_of [1; 2; 3])).
  - holds_sample.
  - int_sample.
Defined.

Lemma reversed_123 : list.reverse (cells_of [1; 2; 3]) = cells_of [3; 2; 1].
Proof. reflexivity. Qed.

(** C8, at [{1, 2, 3}] with the default index. *)
Lemma pop_deletes_what_was_not_allocated_witness :
  pop arr_123 (-1) mem_123 = Fault BadDelete.
Proof.
  apply (pop_deletes_what_was_not_allocated mem_123 arr_123 (cells_of [1; 2; 3]) (-1)).
  - holds_sample.
  - int_sample.
  - simpl. lia.
Defined.

(** C9, at [{1, 2, 3}] with the index [-1]. *)
Lemma subscript_valid_index_witness :
  (0 <= -1 < length arr_123 ->
     subscript arr_123 (-1) mem_123 = Ok (ptr_add (m_data arr_123) (-1)) mem_123 /\
     get arr_123 (-1) mem_123 = Ok (peek (cells_of [1; 2; 3]) (Z.to_nat (-1))) mem_123) /\
  (- length arr_123 <= -1 < 0 ->
     subscript arr_123 (-1) mem_123 = subscript arr_123 (length arr_123 + -1) mem_123 /\
     get arr_123 (-1) mem_123 = get arr_123 (length arr_123 + -1) mem_123).
Proof.
  apply (subscript_valid_index mem_123 arr_123 (cells_of [1; 2; 3]) (-1)).
  - holds_sample.
  - int_sample.
Defined.

(** C10, at the view over [{1, 2}] with [{10}] beside it: [pop()] and
    [a + b] on the source. *)
Lemma source_mutations_after_view_undefined_witness :
  holds (viewed mem_2_1 (cells_of [1; 2])) (MkSmartArray (Ptr 3 0) 2)
    (list.reverse (cells_of [1; 2])) /\
  holds (viewed mem_2_1 (cells_of [1; 2])) arr_1_2 (cells_of [1; 2]) /\
  pop arr_1_2 (-1) (viewed mem_2_1 (cells_of [1; 2])) = Fault BadDelete /\
  concat arr_1_2 arr_10 (viewed mem_2_1 (cells_of [1; 2])) = Fault StoreOutOfBlock.
Proof.
  apply (source_mutations_after_view_undefined 0 mem_2_1 arr_1_2 (cells_of [1; 2])
           (MkSmartArrayReverse SmartArray_default (MkSmartArray (Ptr 3 0) 2))
           (viewed mem_2_1 (cells_of [1; 2])) (-1) arr_10 (cells_of [10])).
  - holds_sample.
  - int_sample.
  - reflexivity.
  - simpl. lia.
  - holds_sample.
  - discriminate.
  - simpl. lia.
Defined.

(** The view over [{1, 2, 3}], with the source then concatenated with the
    view's own buffer and appended to. *)
Lemma view_unaffected_by_source_mutations_witness :
  length (iter view_123) = Z.of_nat 3 /\
  holds mem_after_run (iter view_123) (list.reverse (cells_of [1; 2; 3])) /\
  elements mem_after_run (iter view_123) = elements mem_view_123 (iter view_123) /\
  iterate (rbegin_ view_123) 3 mem_after_run
  = Ok (list.reverse (cells_of [1; 2; 3])) mem_after_run.
Proof.
  apply (view_unaffected_by_source_mutations 0 mem_123 arr_123 (cells_of [1; 2; 3])
           view_123 mem_view_123 arr_after_run mem_after_run).
  - holds_sample.
  - int_sample.
  - reflexivity.
  - exact run_123_returns.
Defined.


(** From length 9 on the growth step adds more than one slot: [append] on
    [{1, ..., 9}] yields length 11, the value in slot 9 and an indeterminate
    slot 10 after it. *)
Lemma append_to_nine :
  match append arr_nine 10 mem_nine with
  | Ok a' m' =>
    length a' = 11 /\
    elements m' a' = Some (cells_of [1; 2; 3; 4; 5; 6; 7; 8; 9; 10] ++ [None])
  | _ => False
  end.
Proof. vm_compute. split; reflexivity. Qed.


(** ** The further properties at the sample states *)

Lemma sized_array_holds_defaults_witness :
  exists a m',
    SmartArray_sized 0 3 mem_empty = Ok a m' /\
    length a = 3 /\ m_data a = Ptr (len (blocks mem_empty)) 0 /\
    holds m' a (replicate (Z.to_nat 3) (Some 0)) /\
    stray_reads m' = stray_reads mem_empty /\
    (forall b, (b < len (blocks mem_empty))%nat ->
               blocks m' !! b = blocks mem_empty !! b).
Proof.
  apply (proj1 (sized_array_holds_defaults 0 mem_empty 3)).
  size_sample.
Defined.

Lemma copy_is_deep_witness :
  exists a' m',
    SmartArray_copy arr_123 mem_123 = Ok a' m' /\
    length a' = length arr_123 /\
    holds m' a' (cells_of [1; 2; 3]) /\ holds m' arr_123 (cells_of [1; 2; 3]) /\
    m_data a' = Ptr (len (blocks mem_123)) 0 /\ m_data a' <> m_data arr_123 /\
    stray_reads m' = stray_reads mem_123.
Proof.
  apply (copy_is_deep mem_123 arr_123 (cells_of [1; 2; 3])).
  - holds_sample.
  - size_sample.
Defined.

Lemma default_array_rejects_no_index_witness :
  checkIndexOrSize SmartArray_default 5 mem_empty = Ok tt mem_empty /\
  subscript SmartArray_default 5 mem_empty = Ok (ptr_add Null 5) mem_empty /\
  get SmartArray_default 5 mem_empty = Fault NullAccess /\
  set SmartArray_default 5 7 mem_empty = Fault NullAccess /\
  put SmartArray_default 7 5 mem_empty = Fault NullAccess /\
  pop SmartArray_default 5 mem_empty
  = Fault (if (5 =? 0) || (5 =? -1) then AllocFailure else BadDelete).
Proof.
  apply (default_array_rejects_no_index mem_empty 5 7).
  int_sample.
Defined.

Lemma plus_itself_doubles_witness :
  exists b a' m',
    m_data arr_123 = Ptr b 0 /\
    operator_plus arr_123 Itself mem_123 = Ok a' m' /\
    length a' = 2 * length arr_123 /\
    holds m' a' (cells_of [1; 2; 3] ++ cells_of [1; 2; 3]) /\
    blocks m' !! b = Some (Block true false (cells_of [1; 2; 3])) /\
    stray_reads m'
    = stray_reads mem_123 ++ ((fun j => (b, Z.of_nat j)) <$> seq 3 3).
Proof.
  apply (plus_itself_doubles mem_123 arr_123 (cells_of [1; 2; 3])).
  - holds_sample.
  - int_sample.
Defined.


Lemma copy_and_source_are_independent_witness :
  (forall a2 m2, mutates arr_copy_123 mem_copy_123 a2 m2 ->
                 holds m2 arr_123 (cells_of [1; 2; 3])) /\
  (forall a2 m2, mutates arr_123 mem_copy_123 a2 m2 ->
                 holds m2 arr_copy_123 (cells_of [1; 2; 3])).
Proof.
  apply (copy_and_source_are_independent mem_123 arr_123 (cells_of [1; 2; 3])
           arr_copy_123 mem_copy_123).
  - holds_sample.
  - size_sample.
  - reflexivity.
Defined.

Lemma destroy_releases_once_witness :
  SmartArray_destroy arr_123 mem_123 = Ok tt (freed mem_123 arr_123) /\
  elements (freed mem_123 arr_123) arr_123 = None /\
  SmartArray_destroy arr_123 (freed mem_123 arr_123) = Fault BadDelete /\
  (forall i, - length arr_123 <= i < length arr_123 ->
             get arr_123 i (freed mem_123 arr_123) = Fault DeadAccess) /\
  (forall b, ptr_block (m_data arr_123) <> Some b ->
             blocks (freed mem_123 arr_123) !! b = blocks mem_123 !! b).
Proof.
  apply (destroy_releases_once mem_123 arr_123 (cells_of [1; 2; 3])).
  - holds_sample.
  - discriminate.
  - int_sample.
Defined.

Lemma set_then_get_witness :
  exists m',
    set arr_123 (-1) 9 mem_123 = Ok tt m' /\
    holds m' arr_123 (<[2%nat := Some 9]> (cells_of [1; 2; 3])) /\
    get arr_123 (-1) m' = Ok (Some 9) m' /\
    stray_reads m' = stray_reads mem_123 /\
    (forall b, ptr_block (m_data arr_123) <> Some b ->
               blocks m' !! b = blocks mem_123 !! b).
Proof.
  apply (set_then_get mem_123 arr_123 (cells_of [1; 2; 3]) (-1) 9).
  - holds_sample.
  - int_sample.
  - simpl. lia.
Defined.

Lemma iteration_visits_the_elements_witness :
  iterate (begin_ arr_123) 3 mem_123 = Ok (cells_of [1; 2; 3]) mem_123 /\
  end_ arr_123 = ptr_add (begin_ arr_123) (Z.of_nat 3).
Proof.
  apply (iteration_visits_the_elements mem_123 arr_123 (cells_of [1; 2; 3])).
  holds_sample.
Defined.

(** [to_arr()] with its default argument on [{1, 2, 3}]: a buffer with 1, 2. *)
Lemma to_arr_copies_a_prefix_witness :
  to_arr arr_123 (-1) mem_123
  = Ok (Ptr 1 0) (push_block (Block true true (cells_of [1; 2])) mem_123).
Proof.
  apply (proj1 (to_arr_copies_a_prefix mem_123 arr_123 (cells_of [1; 2; 3]) (-1)
                  ltac:(holds_sample) ltac:(int_sample))).
  - simpl. lia.
  - discriminate.
Defined.

Lemma from_arr_replaces_contents_witness :
  exists b a' m',
    m_data arr_123 = Ptr b 0 /\
    from_arr arr_123 (Ptr 1 0) (Z.of_nat 3) mem_3_3 = Ok a' m' /\
    from_arr_fixed arr_123 (Ptr 1 0) (Z.of_nat 3) mem_3_3 = Ok a' m' /\
    length a' = Z.of_nat 3 /\
    holds m' a' (take 3 (cells_of [10; 20; 30])) /\
    blocks m' !! 1%nat = Some (Block true true (cells_of [10; 20; 30])) /\
    blocks m' !! b = Some (Block true false (cells_of [1; 2; 3])) /\
    stray_reads m'
    = stray_reads mem_3_3 ++ ((fun j => (b, Z.of_nat j)) <$> seq 3 (3 - 3)).
Proof.
  apply (from_arr_replaces_contents mem_3_3 arr_123 (cells_of [1; 2; 3])
           1 true (cells_of [10; 20; 30]) 3).
  - holds_sample.
  - discriminate.
  - reflexivity.
  - discriminate.
  - simpl. lia.
  - size_sample.
Defined.

Lemma from_arr_of_own_buffer_witness :
  from_arr arr_123 (m_data arr_123) (Z.of_nat 2) mem_123 = Fault DeadAccess.
Proof.
  apply (from_arr_of_own_buffer mem_123 arr_123 (cells_of [1; 2; 3]) 2).
  - holds_sample.
  - discriminate.
  - lia.
  - size_sample.
Defined.

Lemma from_arr_of_nothing_abandons_buffer_witness :
  exists b,
    m_data arr_123 = Ptr b 0 /\
    from_arr arr_123 Null 0 mem_123 = Ok SmartArray_default mem_123 /\
    bind (from_arr arr_123 Null 0) SmartArray_destroy mem_123 = Ok tt mem_123 /\
    blocks mem_123 !! b = Some (Block true true (cells_of [1; 2; 3])).
Proof.
  apply (from_arr_of_nothing_abandons_buffer mem_123 arr_123 (cells_of [1; 2; 3]) Null).
  - holds_sample.
  - discriminate.
Defined.

Lemma put_overwrites_without_shifting_witness :
  exists a' m',
    put arr_123 9 0 mem_123 = Ok a' m' /\
    length a' = grow_size (length arr_123) /\
    holds m' a' (<[Z.to_nat 0 := Some 9]> (cells_of [1; 2; 3])
                 ++ replicate (Z.to_nat (grow_size (length arr_123) - length arr_123)) None).
Proof.
  apply (put_overwrites_without_shifting mem_123 arr_123 (cells_of [1; 2; 3]) 9 0).
  - holds_sample.
  - int_sample.
  - simpl. lia.
Defined.

Lemma append_pads_with_indeterminate_slots_witness :
  exists a' m',
    append arr_nine 10 mem_nine = Ok a' m' /\
    length a' = length arr_nine + 1 + Z.of_nat 1 /\
    holds m' a' (cells_of [1; 2; 3; 4; 5; 6; 7; 8; 9] ++ Some 10 :: replicate 1 None) /\
    get a' (length arr_nine) m' = Ok (Some 10) m' /\
    (length arr_nine <= 8 -> 1%nat = 0%nat /\ get a' (-1) m' = Ok (Some 10) m') /\
    (9 <= length arr_nine -> (1 <= 1)%nat /\ get a' (-1) m' = Ok None m').
Proof.
  apply (append_pads_with_indeterminate_slots mem_nine arr_nine
           (cells_of [1; 2; 3; 4; 5; 6; 7; 8; 9]) 10).
  - holds_sample.
  - simpl. lia.
  - vm_compute. discriminate.
Defined.

Lemma concat_longer_first_operand_overruns_witness :
  concat arr_1_2 arr_10 mem_2_1 = Fault StoreOutOfBlock.
Proof.
  apply (concat_longer_first_operand_overruns mem_2_1 arr_1_2 arr_10
           (cells_of [1; 2]) (cells_of [10])).
  - holds_sample.
  - holds_sample.
  - discriminate.
  - simpl. lia.
  - int_sample.
Defined.

Lemma concat_with_default_array_witness :
  concat arr_123 SmartArray_default mem_123 = Fault NullAccess /\
  concat SmartArray_default arr_123 mem_123 = Fault NullAccess /\
  concat SmartArray_default SmartArray_default mem_123 = Ok SmartArray_default mem_123.
Proof.
  apply (concat_with_default_array mem_123 arr_123 (cells_of [1; 2; 3])).
  - holds_sample.
  - int_sample.
Defined.

Lemma reverse_twice_restores_witness :
  exists m1 m2,
    reverse 0 arr_123 mem_123 = Ok tt m1 /\
    holds m1 arr_123 (list.reverse (cells_of [1; 2; 3])) /\
    reverse 0 arr_123 m1 = Ok tt m2 /\ holds m2 arr_123 (cells_of [1; 2; 3]) /\
    stray_reads m2 = stray_reads mem_123 /\
    blocks m2 = blocks mem_123 ++ [Block true false (list.reverse (cells_of [1; 2; 3]));
                                   Block true false (cells_of [1; 2; 3])].
Proof.
  apply (reverse_twice_restores 0 mem_123 arr_123 (cells_of [1; 2; 3])).
  - holds_sample.
  - discriminate.
  - int_sample.
Defined.

Lemma view_lifecycle_releases_all_witness :
  exists m',
    bind (SmartArrayReverse_ctor 0 arr_123) SmartArrayReverse_destroy mem_123 = Ok tt m' /\
    blocks m' = blocks mem_123 ++ [Block true false (cells_of [1; 2; 3]);
                                   Block true false (list.reverse (cells_of [1; 2; 3]));
                                   Block true false (list.reverse (cells_of [1; 2; 3]))] /\
    stray_reads m' = stray_reads mem_123 /\
    holds m' arr_123 (cells_of [1; 2; 3]).
Proof.
  apply (view_lifecycle_releases_all 0 mem_123 arr_123 (cells_of [1; 2; 3])).
  - holds_sample.
  - int_sample.
Defined.

Lemma view_inherited_members_see_an_empty_array_witness :
  length (iter view_123) = Z.of_nat 3 /\
  size (base view_123) = 0 /\
  subscript (base view_123) 0 mem_view_123
  = Ok (ptr_add Null (resolve_get 0 0)) mem_view_123 /\
  get (base view_123) 0 mem_view_123 = Fault NullAccess.
Proof.
  apply (view_inherited_members_see_an_empty_array 0 mem_123 arr_123
           (cells_of [1; 2; 3]) view_123 mem_view_123 0).
  - holds_sample.
  - int_sample.
  - reflexivity.
Defined.

Lemma stream_out_renders_every_element_witness :
  stream_out arr_123 mem_123
  = Ok (Text "{" :: flat_map (fun v => [Value v; Text ", "]) (cells_of [1; 2; 3])
          ++ [Text "}"])
       (push_block (Block true false (cells_of [1; 2; 3])) mem_123) /\
  holds (push_block (Block true false (cells_of [1; 2; 3])) mem_123) arr_123
    (cells_of [1; 2; 3]).
Proof.
  apply (stream_out_renders_every_element mem_123 arr_123 (cells_of [1; 2; 3])).
  - holds_sample.
  - size_sample.
Defined.

Lemma example_program_stops_at_pop_witness :
  (exists a m3,
     main_before_pop (Ptr 0 0) mem_literal
     = Ok (a, [Text "{"; Value (Some 1); Text ", "; Value (Some 2); Text ", ";
               Value (Some 3); Text ", "; Text "}"]) m3 /\
     holds m3 a (cells_of [1; 2; 3])) /\
  main (Ptr 0 0) mem_literal = Fault BadDelete.
Proof.
  apply (example_program_stops_at_pop mem_literal 0 false). reflexivity.
Defined.

(** [to_arr()] with its default argument on a default-constructed array. *)
Lemma to_arr_on_default_array_witness :
  to_arr SmartArray_default (-1) mem_empty = Fault AllocFailure.
Proof.
  apply (proj2 (to_arr_on_default_array mem_empty (-1) ltac:(int_sample))). lia.
Defined.

Lemma check_accepts_exactly_valid_indices_witness :
  (checkIndexOrSize arr_123 3 mem_123 = Ok tt mem_123
   <-> - length arr_123 <= 3 < length arr_123) /\
  (checkIndexOrSize arr_123 3 mem_123 = OutOfBounds (freed mem_123 arr_123)
   <-> (length arr_123 <= 3 \/ 3 < - length arr_123)).
Proof.
  apply (check_accepts_exactly_valid_indices mem_123 arr_123 (cells_of [1; 2; 3]) 3).
  - holds_sample.
  - int_sample.
  - int_sample.
Defined.
